(** * A genetic algorithm evolving images towards a target

    Shallow embedding of the two programs of the repository:
    - [monalisa_triangles/main.go]: a genome is a list of coloured
      triangles, rendered to an RGBA buffer (module [Triangles]);
    - the raw-pixel program: a genome is the RGBA buffer itself
      (module [Pixels]).

    Both programs share, word for word, the difference metric ([diff],
    [squareDifference]), [getBest], [naturalSelection] and
    [createPopulation], and [calcFitness] up to the genome type; they
    differ in [createPool], [crossover], [mutate] and [createDNA].  The
    loading, saving and printing of images around [main]'s loop are not
    modelled. *)

From Stdlib Require Import ZArith Lia Strings.Byte Floats.SpecFloat.
From stdpp Require Import base list numbers sorting.

Open Scope Z_scope.

(** ** The fragment of Go the programs use *)

Module Go.

(** Run-time panics.  None is recovered by the programs: a panic aborts
    the run. *)
Inductive panic :=
| IndexOutOfRange
| SliceBoundsOutOfRange
| NilDereference
| MakeLenOutOfRange
| IntnInvalidArgument
| ImageHugeOrNegative.

Inductive result (A : Type) :=
| Ok (a : A)
| Panic (p : panic).
Arguments Ok {A} a.
Arguments Panic {A} p.

#[export] Instance result_ret : MRet result := fun A a => Ok a.
#[export] Instance result_bind : MBind result := fun A B f m =>
  match m with
  | Ok a => f a
  | Panic p => Panic p
  end.

Definition is_Ok {A} (r : result A) : Prop := exists a, r = Ok a.

(** *** Fixed-width integers, as [Z] with the wrap-around written out *)

Definition uint64 (z : Z) : Z := z mod 2 ^ 64.
Definition int64 (z : Z) : Z := (z + 2 ^ 63) mod 2 ^ 64 - 2 ^ 63.
Definition maxInt : Z := 2 ^ 63 - 1.
Definition minInt64 : Z := - 2 ^ 63.

(** [uint8] values are [byte]s; [u8] reads one as a number, [uint8] is the
    conversion [uint8(z)] (truncation to the low eight bits). *)
Definition u8 (b : byte) : Z := Z.of_N (Byte.to_N b).
Definition uint8 (z : Z) : byte :=
  default x00 (Byte.of_N (Z.to_N (z mod 256))).

(** *** Slices

    A slice is modelled by the list of its elements; every slice of the
    programs is created by [make] with its capacity equal to its length.
    [a[i]] panics out of range, [a[0:hi]] panics unless [0 <= hi <= cap]. *)

Definition index {A} (l : list A) (i : nat) : result A :=
  match l !! i with
  | Some x => Ok x
  | None => Panic IndexOutOfRange
  end.

Definition indexZ {A} (l : list A) (i : Z) : result A :=
  if i <? 0 then Panic IndexOutOfRange else index l (Z.to_nat i).

Definition slice_to {A} (l : list A) (hi : Z) : result (list A) :=
  if (0 <=? hi) && (hi <=? Z.of_nat (length l))
  then Ok (take (Z.to_nat hi) l)
  else Panic SliceBoundsOutOfRange.

Definition make {A} (zero : A) (n : Z) : result (list A) :=
  if n <? 0 then Panic MakeLenOutOfRange else Ok (replicate (Z.to_nat n) zero).

Definition deref {A} (p : option A) : result A :=
  match p with
  | Some x => Ok x
  | None => Panic NilDereference
  end.

(** [for i := lo; i < lo + n; i++ { s = body i s }] *)
Fixpoint for_loop {St} (n i : nat) (body : nat -> St -> result St) (s : St) : result St :=
  match n with
  | O => Ok s
  | S n' => s' ← body i s; for_loop n' (S i) body s'
  end.

(** *** math/rand

    The generator is a global, seeded from the clock.  Its state is
    modelled by the tape of raw values it is still going to produce (zeros
    once the tape is used up); quantifying over tapes covers every run.
    [Intn n] panics unless [0 < n] and otherwise yields a value of
    [[0, n)]: the next raw value, reduced. *)

Definition Rand := list Z.
Definition M (A : Type) : Type := Rand -> result (A * Rand).

#[export] Instance M_ret : MRet M := fun A a r => Ok (a, r).
#[export] Instance M_bind : MBind M := fun A B f m r =>
  match m r with
  | Ok (a, r') => f a r'
  | Panic p => Panic p
  end.

Definition lift {A} (x : result A) : M A := fun r =>
  match x with
  | Ok a => Ok (a, r)
  | Panic p => Panic p
  end.

Definition next (r : Rand) : Z * Rand :=
  match r with
  | [] => (0, [])
  | x :: r' => (x, r')
  end.

Definition Intn (n : Z) : M Z := fun r =>
  if n <=? 0 then Panic IntnInvalidArgument
  else let (x, r') := next r in Ok (x mod n, r').

Fixpoint for_loopM {St} (n i : nat) (body : nat -> St -> M St) (s : St) : M St :=
  match n with
  | O => mret s
  | S n' => s' ← body i s; for_loopM n' (S i) body s'
  end.

(** [rand.Read(p)] overwrites every byte of [p] with a random one. *)
Definition Read (p : list byte) : M (list byte) :=
  for_loopM (length p) 0 (fun i p r =>
    let (x, r') := next r in Ok (<[i := uint8 x]> p, r')) p.

(** *** float64

    IEEE 754 binary64 values with the correctly rounded operations of
    the standard library's executable specification. *)

Definition float64 := spec_float.

(** The conversion [float64(d)] of an [int64]: round to nearest even. *)
Definition float64_of_int (d : Z) : float64 := binary_normalize 53 1024 d 0 false.

Definition math_Sqrt (x : float64) : float64 := SFsqrt 53 1024 x.

(** The conversion [int64(f)]: truncation towards zero.  When the value
    does not fit (or [f] is a NaN or an infinity) the language leaves the
    result to the implementation; amd64 yields the smallest [int64]. *)
Definition int64_of_float64 (f : float64) : Z :=
  match f with
  | S754_zero _ => 0
  | S754_finite s m e =>
      let v := if 0 <=? e then Z.shiftl (Zpos m) e else Z.shiftr (Zpos m) (- e) in
      let v := if s then - v else v in
      if (minInt64 <=? v) && (v <=? maxInt) then v else minInt64
  | _ => minInt64
  end.

(** [rand.Float64()]: a value of [[0, 1)], here [k / 2^53] for the next
    raw value [k], reduced to 53 bits. *)
Definition Float64 : M float64 := fun r =>
  let (x, r') := next r in
  Ok (binary_normalize 53 1024 (x mod 2 ^ 53) (-53) false, r').

Definition float64_lt (x y : float64) : bool := SFltb x y.

(** *** image *)

Module color.
Record RGBA := { R : byte; G : byte; B : byte; A : byte }.
End color.

Module image.
Record Point := { X : Z; Y : Z }.
Record Rectangle := { Min : Point; Max : Point }.

Definition Dx (r : Rectangle) : Z := int64 (X (Max r) - X (Min r)).
Definition Dy (r : Rectangle) : Z := int64 (Y (Max r) - Y (Min r)).

(** [image.Rect(x0, y0, x1, y1)] orders the corners. *)
Definition Rect (x0 y0 x1 y1 : Z) : Rectangle :=
  let (x0, x1) := if x0 >? x1 then (x1, x0) else (x0, x1) in
  let (y0, y1) := if y0 >? y1 then (y1, y0) else (y0, y1) in
  {| Min := {| X := x0; Y := y0 |}; Max := {| X := x1; Y := y1 |} |}.

(** The field [Rect] of the library's struct is called [Bounds] here. *)
Record RGBA := { Pix : list byte; Stride : Z; Bounds : Rectangle }.

(** [image.NewRGBA(r)]: a zeroed buffer of [4 * Dx r * Dy r] bytes; it
    panics when that length is negative or exceeds an [int]. *)
Definition NewRGBA (r : Rectangle) : result RGBA :=
  let w := Dx r in
  let h := Dy r in
  if (w <? 0) || (h <? 0) || (maxInt <? 4 * w * h)
  then Panic ImageHugeOrNegative
  else Ok {| Pix := replicate (Z.to_nat (4 * w * h)) x00;
             Stride := 4 * w;
             Bounds := r |}.
End image.

(** *** sort.SliceStable

    The library sorts in place and keeps equal elements in their order;
    that fixes its result, which the stable insertion sort below
    computes. *)
Section SliceStable.
Context {A : Type} (less : A -> A -> bool).

Fixpoint insert_stable (x : A) (l : list A) : list A :=
  match l with
  | [] => [x]
  | y :: l' => if less y x then y :: insert_stable x l' else x :: y :: l'
  end.

Fixpoint SliceStable (l : list A) : list A :=
  match l with
  | [] => []
  | x :: l' => insert_stable x (SliceStable l')
  end.
End SliceStable.

End Go.

Import Go.

(** ** The difference metric (identical in both programs) *)

Definition squareDifference (x y : byte) : Z :=
  let d := uint64 (uint64 (u8 x) - uint64 (u8 y)) in
  uint64 (d * d).

Definition diff (a b : image.RGBA) : result Z :=
  d ← for_loop (length (image.Pix a)) 0 (fun i d =>
         x ← index (image.Pix a) i;
         y ← index (image.Pix b) i;
         Ok (int64 (d + int64 (squareDifference x y)))) 0;
  Ok (int64_of_float64 (math_Sqrt (float64_of_int d))).

(** ** The engine (identical in both programs, up to the genome type) *)

Section Engine.
Context {DNA : Type}.
Variable zeroDNA : DNA.
Variable Fitness : DNA -> Z.
Variable crossover : DNA -> DNA -> M DNA.
Variable mutate : DNA -> M DNA.
Variable calcFitness : DNA -> image.RGBA -> result DNA.
Variable createDNA : image.RGBA -> M DNA.
Variable PopSize : Z.

Definition naturalSelection (pool population : list DNA) (target : image.RGBA)
  : M (list DNA) :=
  for_loopM (length population) 0 (fun i next =>
    r1 ← Intn (Z.of_nat (length pool));
    r2 ← Intn (Z.of_nat (length pool));
    a ← lift (indexZ pool r1);
    b ← lift (indexZ pool r2);
    child ← crossover a b;
    child ← mutate child;
    child ← lift (calcFitness child target);
    mret (<[i := child]> next))
  (replicate (length population) zeroDNA).

Definition createPopulation (target : image.RGBA) : M (list DNA) :=
  population ← lift (make zeroDNA PopSize);
  for_loopM (Z.to_nat PopSize) 0 (fun i population =>
    dna ← createDNA target;
    mret (<[i := dna]> population)) population.

Definition getBest (population : list DNA) : result DNA :=
  '(best, idx) ← for_loop (length population) 0 (fun i '(best, idx) =>
       p ← index population i;
       if Fitness p >? best then Ok (Fitness p, i) else Ok (best, idx))
     (0, 0%nat);
  index population idx.

End Engine.

(** ** The triangle program: [monalisa_triangles/main.go] *)

Module Triangles.

Record Point := { X : Z; Y : Z }.

(** [Color] is an interface value: [None] is the nil interface of a
    zeroed [Triangle]. *)
Record Triangle := { P1 : Point; P2 : Point; P3 : Point; Color : option color.RGBA }.

(** [Gene] is a pointer: [None] is nil. *)
Record DNA := { Gene : option image.RGBA; Triangles : list Triangle; Fitness : Z }.

Definition zeroPoint : Point := {| X := 0; Y := 0 |}.
Definition zeroTriangle : Triangle :=
  {| P1 := zeroPoint; P2 := zeroPoint; P3 := zeroPoint; Color := None |}.
Definition zeroDNA : DNA := {| Gene := None; Triangles := []; Fitness := 0 |}.

Section Config.
(** The package-level variables, set once: 0.021, 100, 20 and 150 in the
    source. *)
Variable MutationRate : float64.
Variable PopSize : Z.
Variable PoolSize : Z.
Variable NumTriangles : Z.
(** What the draw2d graphic context does to the destination image for one
    triangle: move to [P1], lines to [P2] and [P3], close, fill. *)
Variable fill : image.RGBA -> Triangle -> image.RGBA.

Definition draw (w h : Z) (triangles : list Triangle) : result image.RGBA :=
  dest ← image.NewRGBA (image.Rect 0 0 w h);
  Ok (foldl fill dest triangles).

Definition createTriangle (w h : Z) : M Triangle :=
  x1 ← Intn w;
  y1 ← Intn h;
  dx2 ← Intn 30;
  dy2 ← Intn 30;
  dx3 ← Intn 30;
  dy3 ← Intn 30;
  r ← Intn 255;
  g ← Intn 255;
  b ← Intn 255;
  a ← Intn 255;
  mret {| P1 := {| X := x1; Y := y1 |};
          P2 := {| X := int64 (x1 + int64 (dx2 - 15)); Y := int64 (y1 + int64 (dy2 - 15)) |};
          P3 := {| X := int64 (x1 + int64 (dx3 - 15)); Y := int64 (y1 + int64 (dy3 - 15)) |};
          Color := Some {| color.R := uint8 r; color.G := uint8 g;
                           color.B := uint8 b; color.A := uint8 a |} |}.

Definition calcFitness (d : DNA) (target : image.RGBA) : result DNA :=
  gene ← deref (Gene d);
  difference ← diff gene target;
  let d :=
    if difference =? 0
    then {| Gene := Gene d; Triangles := Triangles d; Fitness := 1 |}
    else d in
  Ok {| Gene := Gene d; Triangles := Triangles d; Fitness := difference |}.

Definition createDNA (target : image.RGBA) : M DNA :=
  triangles ← lift (make zeroTriangle NumTriangles);
  triangles ← for_loopM (Z.to_nat NumTriangles) 0 (fun i triangles =>
      t ← createTriangle (image.Dx (image.Bounds target)) (image.Dy (image.Bounds target));
      mret (<[i := t]> triangles)) triangles;
  gene ← lift (draw (image.Dx (image.Bounds target)) (image.Dy (image.Bounds target)) triangles);
  lift (calcFitness {| Gene := Some gene; Triangles := triangles; Fitness := 0 |} target).

Definition crossover (d1 d2 : DNA) : M DNA :=
  let n := length (Triangles d1) in
  mid ← Intn (Z.of_nat n);
  triangles ← for_loopM n 0 (fun i triangles =>
      if Z.of_nat i >? mid
      then t ← lift (index (Triangles d1) i); mret (<[i := t]> triangles)
      else t ← lift (index (Triangles d2) i); mret (<[i := t]> triangles))
    (replicate n zeroTriangle);
  g1 ← lift (deref (Gene d1));
  gene ← lift (draw (image.Dx (image.Bounds g1)) (image.Dy (image.Bounds g1)) triangles);
  mret {| Gene := Some gene; Triangles := triangles; Fitness := 0 |}.

Definition mutate (d : DNA) : M DNA :=
  triangles ← for_loopM (length (Triangles d)) 0 (fun i triangles =>
      f ← Float64;
      if float64_lt f MutationRate
      then g ← lift (deref (Gene d));
           t ← createTriangle (image.Dx (image.Bounds g)) (image.Dy (image.Bounds g));
           mret (<[i := t]> triangles)
      else mret triangles)
    (Triangles d);
  g ← lift (deref (Gene d));
  gene ← lift (draw (image.Dx (image.Bounds g)) (image.Dy (image.Bounds g)) triangles);
  mret {| Gene := Some gene; Triangles := triangles; Fitness := Fitness d |}.

Definition less (a b : DNA) : bool := Fitness a <? Fitness b.

(** [createPool] sorts the caller's slice in place before anything else:
    the first component is that slice afterwards, the second the pool. *)
Definition createPool (population : list DNA) (target : image.RGBA)
  : list DNA * result (list DNA) :=
  let population := SliceStable less population in
  (population,
   top ← slice_to population (PoolSize + 1);
   last ← indexZ top (Z.of_nat (length top) - 1);
   first ← index top 0;
   if int64 (Fitness last - Fitness first) =? 0
   then Ok population
   else
     for_loop (length top - 1) 0 (fun i pool =>
         tK ← indexZ top PoolSize;
         ti ← index top i;
         let num := int64 (Fitness tK - Fitness ti) in
         for_loop (Z.to_nat num) 0 (fun _ pool =>
             ti ← index top i;
             Ok (pool ++ [ti])) pool)
       []).

Definition naturalSelection := naturalSelection zeroDNA crossover mutate calcFitness.
Definition createPopulation := createPopulation zeroDNA createDNA PopSize.
Definition getBest := getBest Fitness.

(** One round of [main]'s loop, without the reporting. *)
Definition generation (population : list DNA) (target : image.RGBA) : M (list DNA) :=
  let (population, pool) := createPool population target in
  pool ← lift pool;
  naturalSelection pool population target.

(** 7500 in the source. *)
Variable FitnessLimit : Z.

(** [main]'s loop: count the round, stop when the fitness of the best
    genome is below the limit, otherwise breed the next population.  The
    saving and printing every tenth round act on nothing the loop reads and
    are left out.  The loop has no bound; [fuel] is the number of rounds
    the model follows, and the result tells whether the loop has ended,
    with the population and the count of rounds at that point. *)
Fixpoint evolve (fuel : nat) (population : list DNA) (target : image.RGBA) (rounds : Z)
  : M (bool * list DNA * Z) :=
  match fuel with
  | O => mret (false, population, rounds)
  | S fuel' =>
      let rounds := int64 (rounds + 1) in
      bestDNA ← lift (getBest population);
      if Fitness bestDNA <? FitnessLimit
      then mret (true, population, rounds)
      else population ← generation population target;
           evolve fuel' population target rounds
  end.

(** [main], from the loaded target on. *)
Definition main (target : image.RGBA) (fuel : nat) : M (bool * list DNA * Z) :=
  population ← createPopulation target;
  evolve fuel population target 0.

End Config.
End Triangles.

(** ** The raw-pixel program *)

Module Pixels.

Record DNA := { Gene : option image.RGBA; Fitness : Z }.

Definition zeroDNA : DNA := {| Gene := None; Fitness := 0 |}.

Section Config.
(** The package-level variables, set once: 0.0004, 250 and 30 in the
    source. *)
Variable MutationRate : float64.
Variable PopSize : Z.
Variable PoolSize : Z.

Definition createRandomImageFrom (img : image.RGBA) : M image.RGBA :=
  pix ← Read (replicate (length (image.Pix img)) x00);
  mret {| image.Pix := pix; image.Stride := image.Stride img;
          image.Bounds := image.Bounds img |}.

Definition calcFitness (d : DNA) (target : image.RGBA) : result DNA :=
  gene ← deref (Gene d);
  difference ← diff gene target;
  let d :=
    if difference =? 0
    then {| Gene := Gene d; Fitness := 1 |}
    else d in
  Ok {| Gene := Gene d; Fitness := difference |}.

Definition createDNA (target : image.RGBA) : M DNA :=
  gene ← createRandomImageFrom target;
  lift (calcFitness {| Gene := Some gene; Fitness := 0 |} target).

Definition crossover (d1 d2 : DNA) : M DNA :=
  g1 ← lift (deref (Gene d1));
  let n := length (image.Pix g1) in
  mid ← Intn (Z.of_nat n);
  pix ← for_loopM n 0 (fun i pix =>
      if Z.of_nat i >? mid
      then x ← lift (index (image.Pix g1) i); mret (<[i := x]> pix)
      else g2 ← lift (deref (Gene d2));
           x ← lift (index (image.Pix g2) i); mret (<[i := x]> pix))
    (replicate n x00);
  mret {| Gene := Some {| image.Pix := pix; image.Stride := image.Stride g1;
                          image.Bounds := image.Bounds g1 |};
          Fitness := 0 |}.

Definition mutate (d : DNA) : M DNA :=
  g ← lift (deref (Gene d));
  pix ← for_loopM (length (image.Pix g)) 0 (fun i pix =>
      f ← Float64;
      if float64_lt f MutationRate
      then v ← Intn 255; mret (<[i := uint8 v]> pix)
      else mret pix)
    (image.Pix g);
  mret {| Gene := Some {| image.Pix := pix; image.Stride := image.Stride g;
                          image.Bounds := image.Bounds g |};
          Fitness := Fitness d |}.

Definition less (a b : DNA) : bool := Fitness a <? Fitness b.

(** As in the triangle program, the first component is the caller's slice
    after the in-place sort. *)
Definition createPool (population : list DNA) (target : image.RGBA)
  : list DNA * result (list DNA) :=
  let population := SliceStable less population in
  (population,
   top ← slice_to population (PoolSize + 1);
   for_loop (length top - 1) 0 (fun i pool =>
       tK ← indexZ top PoolSize;
       ti ← index top i;
       let num := int64 (int64 (Fitness tK - Fitness ti) * 10) in
       for_loop (Z.to_nat num) 0 (fun _ pool =>
           ti ← index top i;
           Ok (pool ++ [ti])) pool)
     []).

Definition naturalSelection := naturalSelection zeroDNA crossover mutate calcFitness.
Definition createPopulation := createPopulation zeroDNA createDNA PopSize.
Definition getBest := getBest Fitness.

(** One round of [main]'s loop, without the reporting. *)
Definition generation (population : list DNA) (target : image.RGBA) : M (list DNA) :=
  let (population, pool) := createPool population target in
  pool ← lift pool;
  naturalSelection pool population target.

(** 7500 in the source. *)
Variable FitnessLimit : Z.

(** [main]'s loop, as in the triangle program (the report comes every
    hundredth round here). *)
Fixpoint evolve (fuel : nat) (population : list DNA) (target : image.RGBA) (rounds : Z)
  : M (bool * list DNA * Z) :=
  match fuel with
  | O => mret (false, population, rounds)
  | S fuel' =>
      let rounds := int64 (rounds + 1) in
      bestDNA ← lift (getBest population);
      if Fitness bestDNA <? FitnessLimit
      then mret (true, population, rounds)
      else population ← generation population target;
           evolve fuel' population target rounds
  end.

(** [main], from the loaded target on. *)
Definition main (target : image.RGBA) (fuel : nat) : M (bool * list DNA * Z) :=
  population ← createPopulation target;
  evolve fuel population target 0.

End Config.
End Pixels.

(** ** Specifications the code is compared with *)

(** The exact sum of the squared differences of corresponding bytes. *)
Fixpoint sumSquares (a b : list byte) : Z :=
  match a, b with
  | x :: a', y :: b' => (u8 x - u8 y) ^ 2 + sumSquares a' b'
  | _, _ => 0
  end.

(** [int64(math.Sqrt(float64(d)))], the last line of [diff]. *)
Definition root (d : Z) : Z := int64_of_float64 (math_Sqrt (float64_of_int d)).

(** The exponent function of binary64. *)
Definition f64_fexp := fexp 53 1024.

(** The body of the loop of [diff]. *)
Definition diff_body (a b : list byte) (i : nat) (d : Z) : result Z :=
  x ← index a i; y ← index b i; Ok (int64 (d + int64 (squareDifference x y))).

(** What the scan knows after the first [i] genomes. *)
Definition scanned {DNA : Type} (Fitness : DNA -> Z) (population : list DNA) (i : nat) (st : Z * nat) : Prop :=
  let (best, idx) := st in
  (forall j g, (j < i)%nat -> population !! j = Some g -> Fitness g <= best) /\
  ((best = 0 /\ idx = 0%nat) \/
   (0 < best /\ (idx < i)%nat /\
    (exists g, population !! idx = Some g /\ Fitness g = best) /\
    (forall j g, (j < idx)%nat -> population !! j = Some g -> Fitness g < best))).

(** Each genome of [l], repeated as many times as its weight. *)
Definition weighted {DNA : Type} (w : DNA -> nat) (l : list DNA) : list DNA :=
  l ≫= (fun g => replicate (w g) g).

(** A fitness that [diff] can produce. *)
Definition valid_fitness (f : Z) : Prop := 0 <= f < 2 ^ 34.

Definition sumZ {A} (f : A -> Z) (l : list A) : Z := foldr (fun x s => f x + s) 0 l.

(** The child of a split at [mid]: unit [i] comes from [a] when [i > mid]
    and from [b] otherwise. *)
Definition splice {A} (mid : Z) (a b : list A) : list A :=
  imap (fun i x => if Z.of_nat i >? mid then x else default x (b !! i)) a.

(** Buffers of fewer than [2^47] bytes: the sum of [diff] cannot overflow. *)
Definition small (img : image.RGBA) : Prop :=
  Z.of_nat (length (image.Pix img)) < 2 ^ 47.

(** The path fill writes pixels only: size and bounds of the destination
    stay as they are. *)
Definition keeps_canvas (fill : image.RGBA -> Triangles.Triangle -> image.RGBA) : Prop :=
  forall img t,
    image.Bounds (fill img t) = image.Bounds img /\
    length (image.Pix (fill img t)) = length (image.Pix img).

(** A canvas [w] by [h] is not empty and needs no more bytes than the
    target has. *)
Definition canvas_fits (target : image.RGBA) (w h : Z) : Prop :=
  0 < w /\ 0 < h /\ 4 * w * h <= Z.of_nat (length (image.Pix target)).

Definition Triangles_fit (target : image.RGBA) (N : nat) (d : Triangles.DNA) : Prop :=
  exists g, Triangles.Gene d = Some g /\
    canvas_fits target (image.Dx (image.Bounds g)) (image.Dy (image.Bounds g)) /\
    length (Triangles.Triangles d) = N.

Definition Pixels_fit (target : image.RGBA) (d : Pixels.DNA) : Prop :=
  exists g, Pixels.Gene d = Some g /\
    length (image.Pix g) = length (image.Pix target).

(** ** Concrete inputs for the examples *)

Module Examples.

Definition image_of (pix : list byte) (w h : Z) : image.RGBA :=
  {| image.Pix := pix; image.Stride := 4 * w; image.Bounds := image.Rect 0 0 w h |}.

(** One black pixel, one white pixel, and a black pixel followed by a
    white one. *)
Definition black : image.RGBA := image_of [x00; x00; x00; x00] 1 1.
Definition white : image.RGBA := image_of [xff; xff; xff; xff] 1 1.
Definition black_white : image.RGBA :=
  image_of [x00; x00; x00; x00; xff; xff; xff; xff] 2 1.

(** A stand-in for the rasteriser: it floods the canvas with the red
    channel of the triangle. *)
Definition flood (img : image.RGBA) (t : Triangles.Triangle) : image.RGBA :=
  {| image.Pix := (fun _ => from_option color.R x00 (Triangles.Color t)) <$> image.Pix img;
     image.Stride := image.Stride img;
     image.Bounds := image.Bounds img |}.

Definition triangle (x y : Z) (red : byte) : Triangles.Triangle :=
  {| Triangles.P1 := {| Triangles.X := x; Triangles.Y := y |};
     Triangles.P2 := {| Triangles.X := x + 1; Triangles.Y := y |};
     Triangles.P3 := {| Triangles.X := x; Triangles.Y := y + 1 |};
     Triangles.Color := Some {| color.R := red; color.G := x00; color.B := x00; color.A := xff |} |}.

Definition tri (ts : list Triangles.Triangle) (f : Z) : Triangles.DNA :=
  {| Triangles.Gene := Some black; Triangles.Triangles := ts; Triangles.Fitness := f |}.

Definition pix (g : image.RGBA) (f : Z) : Pixels.DNA :=
  {| Pixels.Gene := Some g; Pixels.Fitness := f |}.

Definition t1 : Triangles.Triangle := triangle 0 0 x01.
Definition t2 : Triangles.Triangle := triangle 0 0 x02.
Definition t3 : Triangles.Triangle := triangle 0 0 x03.
Definition t4 : Triangles.Triangle := triangle 0 0 x04.

(** The default mutation rates of the two programs, [0.021] and [0.0004]. *)
Definition rate_triangles : float64 :=
  SFdiv 53 1024 (float64_of_int 21) (float64_of_int 1000).
Definition rate_pixels : float64 :=
  SFdiv 53 1024 (float64_of_int 4) (float64_of_int 10000).

End Examples.


(** * Properties *)

(** ** Integers and bytes *)

Lemma u8_range (x : byte) : 0 <= u8 x <= 255.
Proof.
  unfold u8. pose proof (Byte.to_N_bounded x). lia.
Qed.

Lemma int64_small (z : Z) : - 2 ^ 63 <= z < 2 ^ 63 -> int64 z = z.
Proof.
  intros Hz. unfold int64. rewrite Z.mod_small; lia.
Qed.

Lemma int64_range (z : Z) : - 2 ^ 63 <= int64 z < 2 ^ 63.
Proof.
  unfold int64. pose proof (Z.mod_pos_bound (z + 2 ^ 63) (2 ^ 64)). lia.
Qed.

Lemma int64_add_l (a b : Z) : int64 (int64 a + b) = int64 (a + b).
Proof.
  unfold int64.
  replace ((a + 2 ^ 63) mod 2 ^ 64 - 2 ^ 63 + b + 2 ^ 63)
    with ((a + 2 ^ 63) mod 2 ^ 64 + b) by lia.
  rewrite Zplus_mod_idemp_l. f_equal. f_equal. lia.
Qed.

Lemma int64_add_r (a b : Z) : int64 (a + int64 b) = int64 (a + b).
Proof.
  rewrite (Z.add_comm a), int64_add_l. f_equal. lia.
Qed.

Lemma squareDifference_exact (x y : byte) :
  squareDifference x y = (u8 x - u8 y) ^ 2.
Proof.
  unfold squareDifference, uint64.
  pose proof (u8_range x) as Hx. pose proof (u8_range y) as Hy.
  rewrite (Z.mod_small (u8 x)), (Z.mod_small (u8 y)) by lia.
  destruct (Z_lt_le_dec (u8 x) (u8 y)) as [Hlt | Hge].
  - replace ((u8 x - u8 y) mod 2 ^ 64) with (u8 x - u8 y + 2 ^ 64).
    + replace ((u8 x - u8 y + 2 ^ 64) * (u8 x - u8 y + 2 ^ 64))
        with ((u8 x - u8 y) ^ 2 + (2 * (u8 x - u8 y) + 2 ^ 64) * 2 ^ 64) by ring.
      rewrite Z_mod_plus_full. apply Z.mod_small. nia.
    + apply Z.mod_unique with (q := -1); lia.
  - rewrite (Z.mod_small (u8 x - u8 y)) by lia.
    rewrite Z.mod_small by nia. ring.
Qed.

Lemma squareDifference_range (x y : byte) : 0 <= squareDifference x y <= 65025.
Proof.
  rewrite squareDifference_exact.
  pose proof (u8_range x). pose proof (u8_range y). nia.
Qed.

Lemma sumSquares_range (a b : list byte) :
  0 <= sumSquares a b <= 65025 * Z.of_nat (length a).
Proof.
  revert b; induction a as [| x a IH]; intros [| y b]; simpl length; simpl sumSquares; try lia.
  specialize (IH b). pose proof (squareDifference_range x y) as Hs.
  rewrite squareDifference_exact in Hs. lia.
Qed.

(** ** [float64]: magnitudes through rounding and square root *)

Lemma digits2_pos_size (p : positive) : digits2_pos p = Pos.size p.
Proof. induction p; simpl; congruence. Qed.

Lemma Zdigits2_log2 (m : Z) : 0 < m -> Zdigits2 m = Z.log2 m + 1.
Proof.
  destruct m as [| p | p]; try lia. intros _. simpl.
  rewrite digits2_pos_size. destruct p; simpl; lia.
Qed.

Lemma Zdigits2_nonneg (m : Z) : 0 <= Zdigits2 m.
Proof. destruct m; simpl; lia. Qed.

Lemma Zdigits2_le_iff (m k : Z) : 0 <= m -> 0 <= k -> Zdigits2 m <= k <-> m < 2 ^ k.
Proof.
  intros Hm Hk. destruct (Z.eq_dec m 0) as [-> | Hne].
  - simpl. split; intros _; [apply Z.pow_pos_nonneg |]; lia.
  - rewrite Zdigits2_log2 by lia.
    rewrite (Z.log2_lt_pow2 m k) by lia. lia.
Qed.

Lemma shr_1_m (mrs : shr_record) :
  0 <= shr_m mrs -> shr_m (shr_1 mrs) = Z.shiftr (shr_m mrs) 1.
Proof.
  destruct mrs as [m r s]. simpl. intros Hm.
  destruct m as [| [p | p |] |]; try reflexivity; lia.
Qed.

Lemma iter_pos_shr_1 (p : positive) (mrs : shr_record) :
  0 <= shr_m mrs -> shr_m (SpecFloat.iter_pos shr_1 p mrs) = Z.shiftr (shr_m mrs) (Zpos p).
Proof.
  revert mrs. induction p as [p IH | p IH |]; intros mrs Hm; simpl SpecFloat.iter_pos.
  - rewrite IH, IH, shr_1_m, !Z.shiftr_shiftr by
      (try lia; rewrite ?IH, ?shr_1_m by (try lia; rewrite ?shr_1_m by lia; apply Z.shiftr_nonneg; lia);
       repeat apply Z.shiftr_nonneg; lia).
    f_equal. lia.
  - rewrite IH, IH, !Z.shiftr_shiftr by
      (try lia; rewrite ?IH by lia; repeat apply Z.shiftr_nonneg; lia).
    f_equal. lia.
  - now apply shr_1_m.
Qed.

Lemma Zdigits2_shiftr (m k : Z) :
  0 <= m -> 0 <= k -> Zdigits2 (Z.shiftr m k) <= Z.max 0 (Zdigits2 m - k).
Proof.
  intros Hm Hk.
  pose proof (Z.shiftr_nonneg m k) as Hs.
  apply Zdigits2_le_iff; [lia | lia |].
  pose proof (Zdigits2_nonneg m) as Hd.
  assert (Hlt : m < 2 ^ Zdigits2 m) by (apply Zdigits2_le_iff; lia).
  rewrite Z.shiftr_div_pow2 by lia.
  apply Z.div_lt_upper_bound; [apply Z.pow_pos_nonneg; lia |].
  rewrite <- Z.pow_add_r by lia.
  eapply Z.lt_le_trans; [exact Hlt |].
  apply Z.pow_le_mono_r; lia.
Qed.

Lemma Zdigits2_succ (m : Z) : 0 <= m -> Zdigits2 (m + 1) <= Zdigits2 m + 1.
Proof.
  intros Hm. pose proof (Zdigits2_nonneg m) as Hd.
  assert (Hlt : m < 2 ^ Zdigits2 m) by (apply Zdigits2_le_iff; lia).
  apply Zdigits2_le_iff; [lia | lia |].
  replace (Zdigits2 m + 1) with (Z.succ (Zdigits2 m)) by lia.
  rewrite Z.pow_succ_r by lia.
  assert (0 < 2 ^ Zdigits2 m) by (apply Z.pow_pos_nonneg; lia). lia.
Qed.

Lemma Zdigits2_mono (m n : Z) : 0 <= m <= n -> Zdigits2 m <= Zdigits2 n.
Proof.
  intros Hmn. pose proof (Zdigits2_nonneg n) as Hd.
  apply Zdigits2_le_iff; [lia | lia |].
  assert (n < 2 ^ Zdigits2 n) by (apply Zdigits2_le_iff; lia). lia.
Qed.

(** Shifting to the exponent [fexp] asks for. *)
Lemma shr_fexp_spec (m e : Z) (l : location) :
  0 <= m ->
  let e' := Z.max e (f64_fexp (Zdigits2 m + e)) in
  exists mrs, shr_fexp 53 1024 m e l = (mrs, e') /\
    shr_m mrs = Z.shiftr m (e' - e).
Proof.
  intros Hm e'. unfold shr_fexp, shr. fold f64_fexp.
  destruct (f64_fexp (Zdigits2 m + e) - e) as [| p | p] eqn:Hn.
  - eexists; split; [f_equal; subst e'; lia |].
    replace (e' - e) with 0 by (subst e'; lia).
    destruct l as [| []]; reflexivity.
  - eexists; split; [f_equal; subst e'; lia |].
    rewrite iter_pos_shr_1 by (destruct l as [| []]; simpl; lia).
    replace (e' - e) with (Z.pos p) by (subst e'; lia).
    destruct l as [| []]; reflexivity.
  - eexists; split; [f_equal; subst e'; lia |].
    replace (e' - e) with 0 by (subst e'; lia).
    destruct l as [| []]; reflexivity.
Qed.

Lemma round_nearest_even_range (m : Z) (l : location) :
  m <= round_nearest_even m l <= m + 1.
Proof.
  unfold round_nearest_even. destruct l as [| []]; try destruct (Z.even m); lia.
Qed.

Lemma f64_fexp_le (k : Z) : f64_fexp k <= Z.max (k - 53) (-1074).
Proof. unfold f64_fexp, fexp, emin. lia. Qed.

(** Rounding a non-negative mantissa: the outcome is a zero or a finite
    number whose magnitude exceeds that of the input by one bit at most. *)
Lemma binary_round_aux_bound (mx ex : Z) (lx : location) (B : Z) :
  0 <= mx -> Zdigits2 mx + ex <= B -> ex <= B -> -1074 <= B -> B + 1 <= 971 ->
  match binary_round_aux 53 1024 false mx ex lx with
  | S754_zero s => s = false
  | S754_finite s m e => s = false /\ Zdigits2 (Zpos m) + e <= B + 1 /\ e <= B + 1
  | _ => False
  end.
Proof.
  intros Hm HL Hex HB1 HB2. unfold binary_round_aux.
  destruct (shr_fexp_spec mx ex lx Hm) as (mrs' & -> & Hm').
  set (e' := Z.max ex (f64_fexp (Zdigits2 mx + ex))) in *.
  set (m1 := round_nearest_even (shr_m mrs') (loc_of_shr_record mrs')).
  pose proof (f64_fexp_le (Zdigits2 mx + ex)) as Hf1.
  assert (He' : ex <= e' <= B) by (subst e'; lia).
  assert (Hm'0 : 0 <= shr_m mrs') by (rewrite Hm'; apply Z.shiftr_nonneg; lia).
  assert (Hd' : Zdigits2 (shr_m mrs') + e' <= B).
  { rewrite Hm'. pose proof (Zdigits2_shiftr mx (e' - ex) Hm). lia. }
  pose proof (round_nearest_even_range (shr_m mrs') (loc_of_shr_record mrs')) as Hr.
  fold m1 in Hr.
  assert (Hd1 : Zdigits2 m1 + e' <= B + 1).
  { pose proof (Zdigits2_mono m1 (shr_m mrs' + 1)).
    pose proof (Zdigits2_succ (shr_m mrs') Hm'0). lia. }
  destruct (shr_fexp_spec m1 e' loc_Exact) as (mrs'' & -> & Hm''); [lia |].
  set (e'' := Z.max e' (f64_fexp (Zdigits2 m1 + e'))) in *.
  pose proof (f64_fexp_le (Zdigits2 m1 + e')) as Hf2.
  assert (He'' : e' <= e'' <= B + 1) by (subst e''; lia).
  pose proof (Zdigits2_shiftr m1 (e'' - e')) as Hd''. rewrite <- Hm'' in Hd''.
  assert (0 <= shr_m mrs'') by (rewrite Hm''; apply Z.shiftr_nonneg; lia).
  destruct (shr_m mrs'') as [| m | m] eqn:Hres; [reflexivity | | lia].
  destruct (Z.leb_spec e'' (1024 - 53)); [| lia].
  repeat split; [lia | lia].
Qed.

Lemma iter_xO_pow (p d : positive) : Zpos (Pos.iter xO p d) = Zpos p * 2 ^ Zpos d.
Proof.
  induction d as [| d IH] using Pos.peano_ind.
  - simpl. lia.
  - rewrite Pos.iter_succ, Pos2Z.inj_xO, IH, Pos2Z.inj_succ, Z.pow_succ_r by lia. ring.
Qed.

Lemma Zdigits2_mul_pow2 (m k : Z) : 0 < m -> 0 <= k -> Zdigits2 (m * 2 ^ k) = Zdigits2 m + k.
Proof.
  intros Hm Hk. assert (0 < 2 ^ k) by (apply Z.pow_pos_nonneg; lia).
  rewrite !Zdigits2_log2 by nia. rewrite Z.log2_mul_pow2 by lia. lia.
Qed.

(** [float64(d)] of a non-negative [int64]. *)
Lemma float64_of_int_bound (d : Z) :
  0 <= d < 2 ^ 63 ->
  match binary_normalize 53 1024 d 0 false with
  | S754_zero s => True
  | S754_finite s m e => s = false /\ Zdigits2 (Zpos m) + e <= 64 /\ e <= 64
  | _ => False
  end.
Proof.
  intros Hd. destruct d as [| p | p]; [exact I | | lia].
  unfold binary_normalize, binary_round.
  assert (Hdig : Zdigits2 (Zpos p) <= 63) by (apply Zdigits2_le_iff; lia).
  change (Zdigits2 (Zpos p)) with (Zpos (digits2_pos p)) in Hdig.
  destruct (shl_align p 0 (fexp 53 1024 (Zpos (digits2_pos p) + 0))) as [mz ez] eqn:Hal.
  assert (Hmz : Zdigits2 (Zpos mz) + ez <= 63 /\ ez <= 0).
  { unfold shl_align in Hal.
    destruct (fexp 53 1024 (Zpos (digits2_pos p) + 0) - 0) as [| k | k] eqn:Hk;
      inversion Hal; subst; clear Hal.
    - change (Zdigits2 (Zpos mz)) with (Zpos (digits2_pos mz)). lia.
    - change (Zdigits2 (Zpos mz)) with (Zpos (digits2_pos mz)). lia.
    - rewrite iter_xO_pow, Zdigits2_mul_pow2 by lia.
      change (Zdigits2 (Zpos p)) with (Zpos (digits2_pos p)). lia. }
  pose proof (binary_round_aux_bound (Zpos mz) ez loc_Exact 63) as H.
  destruct (binary_round_aux 53 1024 false (Zpos mz) ez loc_Exact); try exact I; apply H; lia.
Qed.

(** The square root of a finite non-negative number of magnitude at most
    [2^64] is a zero or a finite non-negative number below [2^34]. *)
Lemma SFsqrt_bound (mx : positive) (ex : Z) :
  Zdigits2 (Zpos mx) + ex <= 64 -> ex <= 64 ->
  match SFsqrt 53 1024 (S754_finite false mx ex) with
  | S754_zero s => True
  | S754_finite s m e => s = false /\ Zdigits2 (Zpos m) + e <= 34
  | _ => False
  end.
Proof.
  intros HL Hex. unfold SFsqrt, SFsqrt_core_binary.
  set (d := Zdigits2 (Zpos mx)) in *.
  set (e' := Z.min (fexp 53 1024 (Z.div2 (d + ex + 1))) (Z.div2 ex)).
  assert (He' : 2 * e' <= ex /\ e' <= 32).
  { subst e'. rewrite (Z.div2_div ex).
    generalize (fexp 53 1024 (Z.div2 (d + ex + 1))). intros f.
    Z.div_mod_to_equations. lia. }
  set (m' := match ex - 2 * e' with
             | 0 => Zpos mx
             | Zpos _ => Z.shiftl (Zpos mx) (ex - 2 * e')
             | Zneg _ => 0
             end).
  assert (Hm' : m' = Zpos mx * 2 ^ (ex - 2 * e')).
  { subst m'. destruct (ex - 2 * e') as [| s | s] eqn:Hs; [simpl; lia | | lia].
    rewrite Z.shiftl_mul_pow2 by lia. reflexivity. }
  assert (0 < 2 ^ (ex - 2 * e')) by (apply Z.pow_pos_nonneg; lia).
  assert (Hdm : Zdigits2 m' = d + (ex - 2 * e')).
  { rewrite Hm'. apply Zdigits2_mul_pow2; lia. }
  pose proof (Z.sqrtrem_sqrt m') as Hq.
  destruct (Z.sqrtrem m') as [q r]. simpl in Hq. subst q.
  assert (Hd0 : 0 <= d) by apply Zdigits2_nonneg.
  set (K := (d + (ex - 2 * e') + 1) / 2).
  assert (HK : 0 <= K /\ d + (ex - 2 * e') <= 2 * K /\ K + e' <= 32).
  { subst K. Z.div_mod_to_equations. lia. }
  assert (Hsq : Z.sqrt m' < 2 ^ K).
  { apply Z.sqrt_lt_square; [nia | apply Z.pow_nonneg; lia |].
    rewrite <- Z.pow_add_r by lia.
    assert (m' < 2 ^ Zdigits2 m') by (apply Zdigits2_le_iff; [nia | lia | lia]).
    eapply Z.lt_le_trans; [eassumption |]. apply Z.pow_le_mono_r; lia. }
  pose proof (Z.sqrt_nonneg m') as Hq0.
  assert (Hdq : Zdigits2 (Z.sqrt m') <= K) by (apply Zdigits2_le_iff; lia).
  match goal with |- context [binary_round_aux 53 1024 false ?q ?e ?l] =>
    pose proof (binary_round_aux_bound q e l 33) as H1;
    destruct (binary_round_aux 53 1024 false q e l)
  end; try exact I; try (apply H1; lia).
  destruct H1 as (? & ? & ?); [lia .. |]. split; [assumption | lia].
Qed.

Lemma int64_of_float64_bound (m : positive) (e : Z) :
  Zdigits2 (Zpos m) + e <= 34 ->
  0 <= int64_of_float64 (S754_finite false m e) < 2 ^ 34.
Proof.
  intros HL. unfold int64_of_float64.
  set (v := if 0 <=? e then Z.shiftl (Zpos m) e else Z.shiftr (Zpos m) (- e)).
  assert (Hv : 0 <= v < 2 ^ 34).
  { subst v. destruct (Z.leb_spec 0 e) as [He | He].
    - split; [apply Z.shiftl_nonneg; lia |].
      apply Zdigits2_le_iff; [apply Z.shiftl_nonneg; lia | lia |].
      rewrite Z.shiftl_mul_pow2, Zdigits2_mul_pow2 by lia. lia.
    - split; [apply Z.shiftr_nonneg; lia |].
      apply Zdigits2_le_iff; [apply Z.shiftr_nonneg; lia | lia |].
      pose proof (Zdigits2_shiftr (Zpos m) (- e)). lia. }
  unfold minInt64, maxInt.
  destruct (Z.leb_spec (- 2 ^ 63) v); [| lia].
  destruct (Z.leb_spec v (2 ^ 63 - 1)); simpl; lia.
Qed.

(** The last line of [diff] on a non-negative sum: no NaN, no infinity,
    a non-negative result. *)
Lemma root_range (d : Z) : 0 <= d < 2 ^ 63 -> 0 <= root d < 2 ^ 34.
Proof.
  intros Hd. unfold root, float64_of_int, math_Sqrt.
  pose proof (float64_of_int_bound d Hd) as Hx.
  destruct (binary_normalize 53 1024 d 0 false) as [s | s | | s mx ex];
    try contradiction.
  - simpl. lia.
  - destruct Hx as (-> & HL & Hex).
    pose proof (SFsqrt_bound mx ex HL Hex) as Hr.
    destruct (SFsqrt 53 1024 (S754_finite false mx ex)) as [s | s | | s m e];
      try contradiction.
    + simpl. lia.
    + destruct Hr as (-> & Hm). now apply int64_of_float64_bound.
Qed.

Lemma root_0 : root 0 = 0.
Proof. reflexivity. Qed.

(** ** The loop of [diff] *)

Lemma for_loop_S {St} (n i : nat) (body : nat -> St -> result St) (s : St) :
  for_loop (S n) i body s = body i s ≫= for_loop n (S i) body.
Proof. reflexivity. Qed.

Lemma index_middle {A} (pre l : list A) (x : A) :
  index (pre ++ x :: l) (length pre) = Ok x.
Proof.
  unfold index. now rewrite list_lookup_middle.
Qed.

Lemma index_end {A} (pre : list A) : index (pre ++ []) (length pre) = Panic IndexOutOfRange.
Proof.
  unfold index. rewrite app_nil_r, lookup_ge_None_2; [reflexivity | lia].
Qed.

Lemma diff_loop_spec (a pa b pb : list byte) (d : Z) :
  length pa = length pb ->
  - 2 ^ 63 <= d < 2 ^ 63 ->
  for_loop (length a) (length pa) (diff_body (pa ++ a) (pb ++ b)) d =
    if (length a <=? length b)%nat
    then Ok (int64 (d + sumSquares a b))
    else Panic IndexOutOfRange.
Proof.
  revert pa b pb d. induction a as [| x a IH]; intros pa b pb d Hlen Hd.
  - simpl. rewrite Z.add_0_r, int64_small by lia. reflexivity.
  - assert (Hstep : diff_body (pa ++ x :: a) (pb ++ b) (length pa) d =
                    match b with
                    | [] => Panic IndexOutOfRange
                    | y :: _ => Ok (int64 (d + int64 (squareDifference x y)))
                    end).
    { unfold diff_body. rewrite index_middle. simpl. rewrite Hlen.
      destruct b; [now rewrite index_end | now rewrite index_middle]. }
    change (length (x :: a)) with (S (length a)).
    rewrite for_loop_S, Hstep. destruct b as [| y b]; [reflexivity |].
    change (Ok ?v ≫= ?k) with (k v). cbv beta.
    rewrite (cons_middle x pa a), (cons_middle y pb b), !app_assoc.
    replace (S (length pa)) with (length (pa ++ [x])) by (rewrite length_app; simpl; lia).
    rewrite IH.
    + change (S (length a) <=? length (y :: b))%nat with (length a <=? length b)%nat.
      destruct (length a <=? length b)%nat; [| reflexivity].
      f_equal. rewrite int64_add_r, int64_add_l, squareDifference_exact.
      f_equal. simpl. lia.
    + rewrite !length_app. simpl. lia.
    + apply int64_range.
Qed.

Lemma diff_spec (a b : image.RGBA) :
  diff a b =
    if (length (image.Pix a) <=? length (image.Pix b))%nat
    then Ok (root (int64 (sumSquares (image.Pix a) (image.Pix b))))
    else Panic IndexOutOfRange.
Proof.
  unfold diff.
  pose proof (diff_loop_spec (image.Pix a) [] (image.Pix b) [] 0 eq_refl) as H.
  simpl in H. unfold diff_body in H. rewrite H by lia.
  destruct (length (image.Pix a) <=? length (image.Pix b))%nat; reflexivity.
Qed.

(** ** Loops: invariants *)

Lemma for_loop_inv {St} (P : nat -> St -> Prop) (n i : nat)
    (body : nat -> St -> result St) (s : St) :
  P i s ->
  (forall j t, (i <= j < i + n)%nat -> P j t -> exists t', body j t = Ok t' /\ P (S j) t') ->
  exists s', for_loop n i body s = Ok s' /\ P (i + n)%nat s'.
Proof.
  revert i s. induction n as [| n IH]; intros i s Hs Hbody.
  - exists s. rewrite Nat.add_0_r. now split.
  - destruct (Hbody i s) as (t & Ht & HP); [lia | assumption |].
    destruct (IH (S i) t HP) as (s' & Hs' & HP').
    + intros j u Hj. apply Hbody. lia.
    + exists s'. rewrite for_loop_S, Ht. split; [exact Hs' |].
      now replace (i + S n)%nat with (S i + n)%nat by lia.
Qed.

Lemma for_loopM_S {St} (n i : nat) (body : nat -> St -> M St) (s : St) :
  for_loopM (S n) i body s = body i s ≫= for_loopM n (S i) body.
Proof. reflexivity. Qed.

Lemma for_loopM_inv {St} (P : nat -> St -> Rand -> Prop) (n i : nat)
    (body : nat -> St -> M St) (s : St) (r : Rand) :
  P i s r ->
  (forall j t q, (i <= j < i + n)%nat -> P j t q ->
     exists t' q', body j t q = Ok (t', q') /\ P (S j) t' q') ->
  exists s' r', for_loopM n i body s r = Ok (s', r') /\ P (i + n)%nat s' r'.
Proof.
  revert i s r. induction n as [| n IH]; intros i s r Hs Hbody.
  - exists s, r. rewrite Nat.add_0_r. now split.
  - destruct (Hbody i s r) as (t & q & Ht & HP); [lia | assumption |].
    destruct (IH (S i) t q HP) as (s' & r' & Hs' & HP').
    + intros j u q' Hj. apply Hbody. lia.
    + exists s', r'. rewrite for_loopM_S. unfold mbind, M_bind. rewrite Ht.
      split; [exact Hs' |].
      now replace (i + S n)%nat with (S i + n)%nat by lia.
Qed.

(** ** [getBest] *)

Section GetBest.
Context {DNA : Type} (Fitness : DNA -> Z).

Lemma getBest_scan (population : list DNA) :
  exists st, for_loop (length population) 0 (fun i '(best, idx) =>
       p ← index population i;
       if Fitness p >? best then Ok (Fitness p, i) else Ok (best, idx))
     (0, 0%nat) = Ok st /\ scanned Fitness population (length population) st.
Proof.
  apply (for_loop_inv (scanned Fitness population)).
  - split; [intros; lia | left; split; reflexivity].
  - intros j [best idx] Hj (Hmax & Hidx).
    destruct (lookup_lt_is_Some_2 population j) as [p Hp]; [lia |].
    unfold index. rewrite Hp. simpl.
    destruct (Z.gtb_spec (Fitness p) best) as [Hgt | Hle].
    + eexists; split; [reflexivity |]. split.
      * intros k g Hk Hg. destruct (decide (k = j)) as [-> | Hne].
        -- rewrite Hp in Hg. injection Hg as <-. lia.
        -- specialize (Hmax k g ltac:(lia) Hg). lia.
      * right. assert (0 <= best) by (destruct Hidx as [[-> _] | [? _]]; lia).
        repeat split; [lia | lia | eauto |].
        intros k g Hk Hg. specialize (Hmax k g ltac:(lia) Hg). lia.
    + eexists; split; [reflexivity |]. split.
      * intros k g Hk Hg. destruct (decide (k = j)) as [-> | Hne].
        -- rewrite Hp in Hg. injection Hg as <-. lia.
        -- specialize (Hmax k g ltac:(lia) Hg). lia.
      * destruct Hidx as [? | (? & ? & ? & ?)]; [left | right]; repeat split; auto; lia.
Qed.

End GetBest.

(** C4. On a non-empty population [getBest] returns the genome at the
    first index that achieves the maximum fitness, the maximum being taken
    with zero as the baseline of the comparison: no fitness exceeds that of
    the genome returned or zero, and every earlier genome has a strictly
    smaller fitness.  Fitness values are non-negative in the data model, and
    then the genome returned has the maximum fitness outright.  [getBest]
    is the same function in both programs. *)
Theorem getBest_first_maximum {DNA : Type} (Fitness : DNA -> Z) (population : list DNA) :
  population <> [] ->
  exists idx best,
    getBest Fitness population = Ok best /\
    population !! idx = Some best /\
    (forall g, g ∈ population -> Fitness g <= Z.max 0 (Fitness best)) /\
    (Forall (fun g => 0 <= Fitness g) population ->
     forall g, g ∈ population -> Fitness g <= Fitness best) /\
    (forall j g, (j < idx)%nat -> population !! j = Some g -> Fitness g < Fitness best).
Proof.
  intros Hne. unfold getBest.
  destruct (getBest_scan Fitness population) as ([bestv idx] & -> & Hmax & Hidx).
  simpl.
  destruct population as [| p0 population']; [contradiction |].
  set (population := p0 :: population') in *.
  destruct Hidx as [[-> ->] | (Hpos & Hlt & (g & Hg & HF) & Hfirst)].
  - exists 0%nat, p0. split; [reflexivity |]. split; [reflexivity |]. split; [| split].
    + intros g Hin. apply list_elem_of_lookup in Hin as [j Hj].
      pose proof (lookup_lt_Some _ _ _ Hj). specialize (Hmax j g ltac:(lia) Hj). lia.
    + intros Hnn g Hin.
      assert (0 <= Fitness p0).
      { rewrite Forall_forall in Hnn. apply Hnn. subst population. left. }
      apply list_elem_of_lookup in Hin as [j Hj].
      pose proof (lookup_lt_Some _ _ _ Hj). specialize (Hmax j g ltac:(lia) Hj). lia.
    + intros; lia.
  - exists idx, g. unfold index. rewrite Hg.
    split; [reflexivity |]. split; [reflexivity |]. split; [| split].
    + intros g' Hin. apply list_elem_of_lookup in Hin as [j Hj].
      pose proof (lookup_lt_Some _ _ _ Hj). specialize (Hmax j g' ltac:(lia) Hj). lia.
    + intros _ g' Hin. apply list_elem_of_lookup in Hin as [j Hj].
      pose proof (lookup_lt_Some _ _ _ Hj). specialize (Hmax j g' ltac:(lia) Hj). lia.
    + intros j g' Hj Hg'. specialize (Hfirst j g' Hj Hg'). lia.
Qed.

(** ** [sort.SliceStable] with the comparison of [createPool] *)

Section StableSort.
Context {A : Type} (key : A -> Z).

Let less (a b : A) : bool := key a <? key b.
Let ascending (a b : A) : Prop := key a <= key b.

Lemma insert_stable_perm (x : A) (l : list A) : insert_stable less x l ≡ₚ x :: l.
Proof.
  induction l as [| y l IH]; simpl; [reflexivity |].
  destruct (less y x); [| reflexivity].
  rewrite IH. apply Permutation_swap.
Qed.

Lemma SliceStable_perm (l : list A) : SliceStable less l ≡ₚ l.
Proof.
  induction l as [| x l IH]; simpl; [reflexivity |].
  now rewrite insert_stable_perm, IH.
Qed.

Lemma insert_stable_sorted (x : A) (l : list A) :
  StronglySorted ascending l -> StronglySorted ascending (insert_stable less x l).
Proof.
  induction l as [| y l IH]; intros Hs; simpl.
  - repeat constructor.
  - apply StronglySorted_inv in Hs as [Hs Hy].
    unfold less at 1. destruct (Z.ltb_spec (key y) (key x)) as [Hlt | Hge].
    + constructor; [now apply IH |].
      rewrite insert_stable_perm. constructor; [unfold ascending; lia | assumption].
    + constructor; [now constructor |].
      constructor; [exact Hge |].
      eapply Forall_impl; [exact Hy |]. unfold ascending. intros; lia.
Qed.

Lemma SliceStable_sorted (l : list A) : StronglySorted ascending (SliceStable less l).
Proof.
  induction l as [| x l IH]; simpl; [constructor | now apply insert_stable_sorted].
Qed.

Lemma insert_stable_filter (v : Z) (x : A) (l : list A) :
  filter (fun a => key a = v) (insert_stable less x l) =
  filter (fun a => key a = v) (x :: l).
Proof.
  induction l as [| y l IH]; simpl; [reflexivity |].
  unfold less at 1. destruct (Z.ltb_spec (key y) (key x)) as [Hlt | Hge]; [| reflexivity].
  rewrite filter_cons, IH, !filter_cons.
  destruct (decide (key y = v)), (decide (key x = v)); try reflexivity; lia.
Qed.

(** Stability: the genomes of any one key keep their relative order. *)
Lemma SliceStable_stable (v : Z) (l : list A) :
  filter (fun a => key a = v) (SliceStable less l) = filter (fun a => key a = v) l.
Proof.
  induction l as [| x l IH]; simpl; [reflexivity |].
  now rewrite insert_stable_filter, !filter_cons, IH.
Qed.

Lemma SliceStable_length (l : list A) : length (SliceStable less l) = length l.
Proof. now rewrite SliceStable_perm. Qed.

End StableSort.

(** C10. [createPool] leaves the caller's population sorted in place: the
    slice afterwards is in ascending order of fitness, it holds the same
    genomes as before (whole, none of their fields changed), and genomes of
    equal fitness keep their relative order.  This holds in both programs
    and whatever the pool turns out to be. *)
Theorem createPool_sorts_population_in_place
    (PoolSize : Z) (target : image.RGBA) :
  (forall population : list Triangles.DNA,
     let after := fst (Triangles.createPool PoolSize population target) in
     StronglySorted (fun a b => Triangles.Fitness a <= Triangles.Fitness b) after /\
     after ≡ₚ population /\
     forall v, filter (fun g => Triangles.Fitness g = v) after =
               filter (fun g => Triangles.Fitness g = v) population) /\
  (forall population : list Pixels.DNA,
     let after := fst (Pixels.createPool PoolSize population target) in
     StronglySorted (fun a b => Pixels.Fitness a <= Pixels.Fitness b) after /\
     after ≡ₚ population /\
     forall v, filter (fun g => Pixels.Fitness g = v) after =
               filter (fun g => Pixels.Fitness g = v) population).
Proof.
  split; intros population after; subst after; simpl.
  - split; [apply (SliceStable_sorted Triangles.Fitness) |].
    split; [apply (SliceStable_perm Triangles.Fitness) |].
    intros v. apply (SliceStable_stable Triangles.Fitness).
  - split; [apply (SliceStable_sorted Pixels.Fitness) |].
    split; [apply (SliceStable_perm Pixels.Fitness) |].
    intros v. apply (SliceStable_stable Pixels.Fitness).
Qed.

(** ** The pool *)

Section Pool.
Context {DNA : Type}.

(** The inner loop of [createPool]: [n] copies of [top[i]] are appended. *)
Lemma append_copies (top : list DNA) (i : nat) (ti : DNA) (n k : nat) (pool : list DNA) :
  top !! i = Some ti ->
  for_loop n k (fun _ pool => ti ← index top i; Ok (pool ++ [ti])) pool =
  Ok (pool ++ replicate n ti).
Proof.
  intros Hi.
  set (body := fun (_ : nat) (pool : list DNA) => ti ← index top i; Ok (pool ++ [ti])).
  assert (Hb : forall k pool, body k pool = Ok (pool ++ [ti])).
  { intros k' pool'. unfold body, index. now rewrite Hi. }
  revert k pool. induction n as [| n IH]; intros k pool.
  - simpl. now rewrite app_nil_r.
  - rewrite for_loop_S, Hb. change (Ok ?v ≫= ?f) with (f v). rewrite IH.
    now rewrite <- app_assoc.
Qed.

(** The outer loop, for any way [num] of computing the number of copies. *)
Lemma weighting_loop (top : list DNA) (PoolSize : Z) (tK : DNA)
    (num : DNA -> DNA -> Z) (n i : nat) (pool : list DNA) :
  indexZ top PoolSize = Ok tK ->
  (i + n <= length top)%nat ->
  for_loop n i (fun i pool =>
      tK ← indexZ top PoolSize;
      ti ← index top i;
      for_loop (Z.to_nat (num tK ti)) 0 (fun _ pool =>
          ti ← index top i;
          Ok (pool ++ [ti])) pool) pool =
  Ok (pool ++ weighted (fun g => Z.to_nat (num tK g)) (take n (drop i top))).
Proof.
  intros HK.
  set (body := fun (i : nat) (pool : list DNA) =>
      tK ← indexZ top PoolSize;
      ti ← index top i;
      for_loop (Z.to_nat (num tK ti)) 0 (fun _ pool =>
          ti ← index top i;
          Ok (pool ++ [ti])) pool).
  assert (Hb : forall i ti pool, top !! i = Some ti ->
            body i pool = Ok (pool ++ replicate (Z.to_nat (num tK ti)) ti)).
  { intros j tj pool' Hj. unfold body. rewrite HK.
    change (Ok ?v ≫= ?f) with (f v). cbv beta.
    rewrite <- (append_copies top j tj _ 0 pool' Hj).
    unfold index. now rewrite Hj. }
  revert i pool. induction n as [| n IH]; intros i pool Hlen.
  - simpl. now rewrite app_nil_r.
  - destruct (lookup_lt_is_Some_2 top i) as [ti Hi]; [lia |].
    rewrite for_loop_S, (Hb i ti pool Hi). change (Ok ?v ≫= ?f) with (f v).
    rewrite IH by lia.
    rewrite (drop_S top ti i Hi). simpl take. unfold weighted.
    rewrite bind_cons, app_assoc. reflexivity.
Qed.

Lemma weighted_length (w : DNA -> nat) (l : list DNA) :
  length (weighted w l) = sum_list_with w l.
Proof.
  unfold weighted. induction l as [| g l IH]; [reflexivity |].
  rewrite bind_cons, length_app, length_replicate, IH. reflexivity.
Qed.

Lemma weighted_elem_of (w : DNA -> nat) (l : list DNA) (g : DNA) :
  g ∈ weighted w l -> g ∈ l.
Proof.
  unfold weighted. rewrite list_elem_of_bind. intros (y & Hg & Hy).
  apply elem_of_replicate in Hg as [-> _]. exact Hy.
Qed.

Lemma weighted_all_zero (w : DNA -> nat) (l : list DNA) :
  Forall (fun g => w g = 0%nat) l -> weighted w l = [].
Proof.
  unfold weighted. induction 1 as [| g l Hg _ IH]; [reflexivity |].
  rewrite bind_cons, Hg, IH. reflexivity.
Qed.

End Pool.

Lemma indexZ_lookup {A} (l : list A) (i : Z) (x : A) :
  0 <= i -> l !! Z.to_nat i = Some x -> indexZ l i = Ok x.
Proof.
  intros Hi Hx. unfold indexZ, index.
  destruct (Z.ltb_spec i 0); [lia |]. now rewrite Hx.
Qed.

Lemma slice_to_take {A} (l : list A) (hi : Z) :
  0 <= hi <= Z.of_nat (length l) -> slice_to l hi = Ok (take (Z.to_nat hi) l).
Proof.
  intros Hhi. unfold slice_to.
  destruct (Z.leb_spec 0 hi); [| lia].
  destruct (Z.leb_spec hi (Z.of_nat (length l))); [reflexivity | lia].
Qed.

(** The first [K + 1] genomes of a long enough slice. *)
Lemma top_facts {A} (l : list A) (K : Z) :
  0 <= K < Z.of_nat (length l) ->
  let top := take (Z.to_nat (K + 1)) l in
  slice_to l (K + 1) = Ok top /\
  length top = S (Z.to_nat K) /\
  top !! Z.to_nat K = l !! Z.to_nat K /\
  top !! 0%nat = l !! 0%nat /\
  take (Z.to_nat K) top = take (Z.to_nat K) l.
Proof.
  intros HK top. subst top.
  split; [apply slice_to_take; lia |].
  split; [rewrite length_take; lia |].
  split; [apply lookup_take_lt; lia |].
  split; [apply lookup_take_lt; lia |].
  rewrite take_take. f_equal. lia.
Qed.

Lemma Triangles_createPool_spec (K : Z) (population : list Triangles.DNA)
    (target : image.RGBA) (t0 tK : Triangles.DNA) :
  let sorted := SliceStable Triangles.less population in
  0 <= K < Z.of_nat (length population) ->
  sorted !! 0%nat = Some t0 ->
  sorted !! Z.to_nat K = Some tK ->
  Triangles.createPool K population target =
    (sorted,
     if int64 (Triangles.Fitness tK - Triangles.Fitness t0) =? 0
     then Ok sorted
     else Ok (weighted
                (fun g => Z.to_nat (int64 (Triangles.Fitness tK - Triangles.Fitness g)))
                (take (Z.to_nat K) sorted))).
Proof.
  intros sorted HK H0 HtK. unfold Triangles.createPool. fold sorted. f_equal.
  assert (Hlen : length sorted = length population)
    by apply (SliceStable_length Triangles.Fitness).
  destruct (top_facts sorted K) as (-> & Hl & HtopK & Htop0 & Htake); [lia |].
  change (Ok ?v ≫= ?f) with (f v). cbv beta.
  set (top := take (Z.to_nat (K + 1)) sorted) in *.
  rewrite Hl.
  assert (HiL : indexZ top (Z.of_nat (S (Z.to_nat K)) - 1) = Ok tK).
  { apply indexZ_lookup; [lia |].
    replace (Z.to_nat (Z.of_nat (S (Z.to_nat K)) - 1)) with (Z.to_nat K) by lia.
    congruence. }
  rewrite HiL.
  change (Ok ?v ≫= ?f) with (f v). cbv beta.
  assert (Hi0 : index top 0 = Ok t0) by (unfold index; now rewrite Htop0, H0).
  rewrite Hi0.
  change (Ok ?v ≫= ?f) with (f v). cbv beta.
  destruct (int64 (Triangles.Fitness tK - Triangles.Fitness t0) =? 0); [reflexivity |].
  replace (S (Z.to_nat K) - 1)%nat with (Z.to_nat K) by lia.
  rewrite (weighting_loop top K tK (fun tK ti => int64 (Triangles.Fitness tK - Triangles.Fitness ti))).
  - rewrite drop_0, Htake. reflexivity.
  - apply indexZ_lookup; [lia | congruence].
  - lia.
Qed.

Lemma Pixels_createPool_spec (K : Z) (population : list Pixels.DNA)
    (target : image.RGBA) (tK : Pixels.DNA) :
  let sorted := SliceStable Pixels.less population in
  0 <= K < Z.of_nat (length population) ->
  sorted !! Z.to_nat K = Some tK ->
  Pixels.createPool K population target =
    (sorted,
     Ok (weighted
           (fun g => Z.to_nat (int64 (int64 (Pixels.Fitness tK - Pixels.Fitness g) * 10)))
           (take (Z.to_nat K) sorted))).
Proof.
  intros sorted HK HtK. unfold Pixels.createPool. fold sorted. f_equal.
  assert (Hlen : length sorted = length population)
    by apply (SliceStable_length Pixels.Fitness).
  destruct (top_facts sorted K) as (-> & Hl & HtopK & Htop0 & Htake); [lia |].
  change (Ok ?v ≫= ?f) with (f v). cbv beta.
  set (top := take (Z.to_nat (K + 1)) sorted) in *.
  rewrite Hl.
  replace (S (Z.to_nat K) - 1)%nat with (Z.to_nat K) by lia.
  rewrite (weighting_loop top K tK
             (fun tK ti => int64 (int64 (Pixels.Fitness tK - Pixels.Fitness ti) * 10))).
  - rewrite drop_0, Htake. reflexivity.
  - apply indexZ_lookup; [lia | congruence].
  - lia.
Qed.

Lemma sum_weights {A} (wn : A -> nat) (wz : A -> Z) (l : list A) :
  Forall (fun g => Z.of_nat (wn g) = wz g) l ->
  Z.of_nat (sum_list_with wn l) = sumZ wz l.
Proof.
  induction 1 as [| g l Hg _ IH]; simpl; [reflexivity |]. lia.
Qed.

(** In the sorted slice no genome before index [K] is fitter than the one
    at index [K]. *)
Lemma sorted_before {A} (key : A -> Z) (l : list A) (K : nat) (tK g : A) :
  StronglySorted (fun a b => key a <= key b) l ->
  l !! K = Some tK -> g ∈ take K l -> key g <= key tK.
Proof.
  intros Hs HK Hg. rewrite <- (take_drop K l) in Hs.
  apply (StronglySorted_app_1_elem_of _ _ _ g tK Hs Hg).
  apply list_elem_of_lookup. exists 0%nat. rewrite lookup_drop. now rewrite Nat.add_0_r.
Qed.

(** C5. When the population is longer than the cutoff [K] and the
    weighting loop runs, the pool has as many genomes as the sum, over the
    first [K] genomes of the sorted population, of the fitness of the
    genome at index [K] minus their own (times ten in the raw-pixel
    program), and every genome of the pool is one of these first [K].  The
    triangle program runs the loop unless the genomes at indices [0] and
    [K] have the same fitness; the raw-pixel program always does. *)
Theorem createPool_weighted_pool (K : Z) (target : image.RGBA) :
  (forall (population : list Triangles.DNA) (t0 tK : Triangles.DNA),
     let sorted := fst (Triangles.createPool K population target) in
     0 <= K < Z.of_nat (length population) ->
     Forall (fun g => valid_fitness (Triangles.Fitness g)) population ->
     sorted !! 0%nat = Some t0 ->
     sorted !! Z.to_nat K = Some tK ->
     Triangles.Fitness tK <> Triangles.Fitness t0 ->
     exists pool,
       snd (Triangles.createPool K population target) = Ok pool /\
       Z.of_nat (length pool) =
         sumZ (fun g => Triangles.Fitness tK - Triangles.Fitness g)
              (take (Z.to_nat K) sorted) /\
       forall g, g ∈ pool -> g ∈ take (Z.to_nat K) sorted) /\
  (forall (population : list Pixels.DNA) (tK : Pixels.DNA),
     let sorted := fst (Pixels.createPool K population target) in
     0 <= K < Z.of_nat (length population) ->
     Forall (fun g => valid_fitness (Pixels.Fitness g)) population ->
     sorted !! Z.to_nat K = Some tK ->
     exists pool,
       snd (Pixels.createPool K population target) = Ok pool /\
       Z.of_nat (length pool) =
         sumZ (fun g => (Pixels.Fitness tK - Pixels.Fitness g) * 10)
              (take (Z.to_nat K) sorted) /\
       forall g, g ∈ pool -> g ∈ take (Z.to_nat K) sorted).
Proof.
  split.
  - intros population t0 tK sorted HK Hvalid H0 HtK Hne.
    assert (Hs : sorted = SliceStable Triangles.less population) by reflexivity.
    rewrite Hs in H0, HtK.
    rewrite (Triangles_createPool_spec K population target t0 tK HK H0 HtK). simpl.
    rewrite <- Hs in *.
    assert (Hv : Forall (fun g => valid_fitness (Triangles.Fitness g)) sorted).
    { rewrite Hs, (SliceStable_perm Triangles.Fitness). exact Hvalid. }
    assert (Hsorted : StronglySorted
              (fun a b => Triangles.Fitness a <= Triangles.Fitness b) sorted)
      by (rewrite Hs; apply (SliceStable_sorted Triangles.Fitness)).
    rewrite Forall_forall in Hv. unfold valid_fitness in Hv.
    pose proof (Hv t0 (list_elem_of_lookup_2 _ _ _ H0)) as Hv0.
    pose proof (Hv tK (list_elem_of_lookup_2 _ _ _ HtK)) as HvK.
    rewrite int64_small by lia.
    destruct (Z.eqb_spec (Triangles.Fitness tK - Triangles.Fitness t0) 0); [lia |].
    eexists; split; [reflexivity |]. split; [| apply weighted_elem_of].
    rewrite weighted_length. apply sum_weights.
    apply Forall_forall. intros g Hg.
    pose proof (sorted_before Triangles.Fitness sorted _ tK g Hsorted HtK Hg).
    pose proof (Hv g (subseteq_take _ _ _ Hg)).
    rewrite int64_small by lia. lia.
  - intros population tK sorted HK Hvalid HtK.
    assert (Hs : sorted = SliceStable Pixels.less population) by reflexivity.
    rewrite Hs in HtK.
    rewrite (Pixels_createPool_spec K population target tK HK HtK). simpl.
    rewrite <- Hs in *.
    assert (Hv : Forall (fun g => valid_fitness (Pixels.Fitness g)) sorted).
    { rewrite Hs, (SliceStable_perm Pixels.Fitness). exact Hvalid. }
    assert (Hsorted : StronglySorted
              (fun a b => Pixels.Fitness a <= Pixels.Fitness b) sorted)
      by (rewrite Hs; apply (SliceStable_sorted Pixels.Fitness)).
    rewrite Forall_forall in Hv. unfold valid_fitness in Hv.
    pose proof (Hv tK (list_elem_of_lookup_2 _ _ _ HtK)) as HvK.
    eexists; split; [reflexivity |]. split; [| apply weighted_elem_of].
    rewrite weighted_length. apply sum_weights.
    apply Forall_forall. intros g Hg.
    pose proof (sorted_before Pixels.Fitness sorted _ tK g Hsorted HtK Hg).
    pose proof (Hv g (subseteq_take _ _ _ Hg)).
    rewrite (int64_small (_ - _)) by lia. rewrite int64_small by lia. lia.
Qed.

(** ** [crossover] *)

Lemma splice_length {A} (mid : Z) (a b : list A) : length (splice mid a b) = length a.
Proof. apply length_imap. Qed.

Lemma splice_lookup {A} (mid : Z) (a b : list A) (i : nat) :
  (i < length a)%nat -> (length a <= length b)%nat ->
  splice mid a b !! i = if Z.of_nat i >? mid then a !! i else b !! i.
Proof.
  intros Hi Hab. unfold splice. rewrite list_lookup_imap.
  destruct (lookup_lt_is_Some_2 a i Hi) as [x ->].
  destruct (lookup_lt_is_Some_2 b i ltac:(lia)) as [y ->]. simpl.
  now destruct (Z.of_nat i >? mid).
Qed.

Lemma splice_self {A} (mid : Z) (a : list A) : splice mid a a = a.
Proof.
  apply list_eq. intros i. destruct (decide (i < length a)%nat) as [Hi | Hi].
  - rewrite splice_lookup by lia. now destruct (Z.of_nat i >? mid).
  - rewrite !lookup_ge_None_2; [reflexivity | lia | rewrite splice_length; lia].
Qed.

(** A loop that assigns [spec[i]] to slot [i] of an array of the right
    length, without drawing random numbers, builds [spec]. *)
Lemma assign_loop {A} (spec init : list A) (body : nat -> list A -> M (list A)) (r : Rand) :
  length init = length spec ->
  (forall i v ts q, spec !! i = Some v -> body i ts q = Ok (<[i := v]> ts, q)) ->
  for_loopM (length spec) 0 body init r = Ok (spec, r).
Proof.
  intros Hlen Hbody.
  destruct (for_loopM_inv
              (fun i ts q => q = r /\ length ts = length spec /\
                             forall j, (j < i)%nat -> ts !! j = spec !! j)
              (length spec) 0 body init r) as (ts & r' & Hrun & -> & Hl & Hts).
  - repeat split; [assumption | intros; lia].
  - intros j ts q Hj (-> & Hl & Hts).
    destruct (lookup_lt_is_Some_2 spec j) as [v Hv]; [lia |].
    exists (<[j := v]> ts), r. split; [now apply Hbody |].
    repeat split; [now rewrite length_insert |].
    intros k Hk. destruct (decide (k = j)) as [-> | Hne].
    + rewrite list_lookup_insert_eq by lia. now rewrite Hv.
    + rewrite list_lookup_insert_ne by lia. apply Hts. lia.
  - rewrite Hrun. f_equal. f_equal. apply list_eq. intros j.
    destruct (decide (j < length spec)%nat) as [Hj | Hj].
    + apply Hts. simpl. lia.
    + rewrite !lookup_ge_None_2; [reflexivity | lia | lia].
Qed.

Lemma M_bind_Ok {A B} (m : M A) (f : A -> M B) (r r' : Rand) (a : A) :
  m r = Ok (a, r') -> (m ≫= f) r = f a r'.
Proof. intros H. unfold mbind, M_bind. now rewrite H. Qed.

Lemma M_bind_Panic {A B} (m : M A) (f : A -> M B) (r : Rand) (p : panic) :
  m r = Panic p -> (m ≫= f) r = Panic p.
Proof. intros H. unfold mbind, M_bind. now rewrite H. Qed.

Lemma Intn_Ok (n : Z) (r : Rand) :
  0 < n -> Intn n r = Ok (fst (next r) mod n, snd (next r)).
Proof.
  intros Hn. unfold Intn. destruct (Z.leb_spec n 0); [lia |]. now destruct (next r).
Qed.

Lemma lift_index_Ok {A} (l : list A) (i : nat) (x : A) (r : Rand) :
  l !! i = Some x -> lift (index l i) r = Ok (x, r).
Proof. intros H. unfold lift, index. now rewrite H. Qed.

Lemma Triangles_crossover_spec (fill : image.RGBA -> Triangles.Triangle -> image.RGBA)
    (d1 d2 : Triangles.DNA) (g1 : image.RGBA) (r : Rand) :
  Triangles.Gene d1 = Some g1 ->
  (0 < length (Triangles.Triangles d1) <= length (Triangles.Triangles d2))%nat ->
  let mid := fst (next r) mod Z.of_nat (length (Triangles.Triangles d1)) in
  let ts := splice mid (Triangles.Triangles d1) (Triangles.Triangles d2) in
  Triangles.crossover fill d1 d2 r =
    match Triangles.draw fill (image.Dx (image.Bounds g1)) (image.Dy (image.Bounds g1)) ts with
    | Ok gene => Ok ({| Triangles.Gene := Some gene; Triangles.Triangles := ts;
                        Triangles.Fitness := 0 |}, snd (next r))
    | Panic p => Panic p
    end.
Proof.
  intros Hg Hlen mid ts. unfold Triangles.crossover.
  erewrite M_bind_Ok by (apply Intn_Ok; lia). fold mid.
  erewrite M_bind_Ok.
  2:{ rewrite <- (splice_length mid (Triangles.Triangles d1) (Triangles.Triangles d2)).
      apply assign_loop.
      - now rewrite length_replicate, splice_length.
      - intros i v us q Hv.
        assert (Hi : (i < length (Triangles.Triangles d1))%nat).
        { apply lookup_lt_Some in Hv. now rewrite splice_length in Hv. }
        rewrite splice_lookup in Hv by lia.
        destruct (Z.of_nat i >? mid);
          (erewrite M_bind_Ok by (apply lift_index_Ok; exact Hv)); reflexivity. }
  fold ts. rewrite Hg. erewrite M_bind_Ok by reflexivity.
  destruct (Triangles.draw fill _ _ ts) as [gene | p] eqn:Hdraw.
  - erewrite M_bind_Ok by (unfold lift; reflexivity). reflexivity.
  - erewrite M_bind_Panic by (unfold lift; reflexivity). reflexivity.
Qed.

Lemma Pixels_crossover_spec (d1 d2 : Pixels.DNA) (g1 g2 : image.RGBA) (r : Rand) :
  Pixels.Gene d1 = Some g1 ->
  Pixels.Gene d2 = Some g2 ->
  (0 < length (image.Pix g1) <= length (image.Pix g2))%nat ->
  let mid := fst (next r) mod Z.of_nat (length (image.Pix g1)) in
  Pixels.crossover d1 d2 r =
    Ok ({| Pixels.Gene := Some {| image.Pix := splice mid (image.Pix g1) (image.Pix g2);
                                  image.Stride := image.Stride g1;
                                  image.Bounds := image.Bounds g1 |};
           Pixels.Fitness := 0 |}, snd (next r)).
Proof.
  intros Hg1 Hg2 Hlen mid. unfold Pixels.crossover.
  rewrite Hg1. erewrite M_bind_Ok by reflexivity.
  erewrite M_bind_Ok by (apply Intn_Ok; lia). fold mid.
  erewrite M_bind_Ok.
  2:{ rewrite <- (splice_length mid (image.Pix g1) (image.Pix g2)).
      apply assign_loop.
      - now rewrite length_replicate, splice_length.
      - intros i v us q Hv.
        assert (Hi : (i < length (image.Pix g1))%nat).
        { apply lookup_lt_Some in Hv. now rewrite splice_length in Hv. }
        rewrite splice_lookup in Hv by lia.
        destruct (Z.of_nat i >? mid).
        + erewrite M_bind_Ok by (apply lift_index_Ok; exact Hv). reflexivity.
        + rewrite Hg2. erewrite M_bind_Ok by reflexivity.
          erewrite M_bind_Ok by (apply lift_index_Ok; exact Hv). reflexivity. }
  reflexivity.
Qed.

Lemma draw_Ok (fill : image.RGBA -> Triangles.Triangle -> image.RGBA) (w h : Z)
    (ts : list Triangles.Triangle) :
  is_Ok (image.NewRGBA (image.Rect 0 0 w h)) -> is_Ok (Triangles.draw fill w h ts).
Proof.
  intros [dest Hd]. unfold Triangles.draw. rewrite Hd. eexists. reflexivity.
Qed.

(** C6. For parents [d1] and [d2] with the same number [N] of units and a
    split index [mid] of [[0, N)] (the next value of the generator), the
    child of [crossover] has [N] units, and its unit [i] is that of [d1]
    when [i > mid] and that of [d2] when [i <= mid]; so the unit at [mid]
    comes from [d2].  Units are triangles in the triangle program (whose
    child is then rendered on a canvas of the size of [d1]'s) and bytes in
    the raw-pixel program. *)
Theorem crossover_splits_at_mid :
  (forall (fill : image.RGBA -> Triangles.Triangle -> image.RGBA)
          (d1 d2 : Triangles.DNA) (g1 : image.RGBA) (mid : Z) (tape : Rand),
     Triangles.Gene d1 = Some g1 ->
     is_Ok (image.NewRGBA (image.Rect 0 0 (image.Dx (image.Bounds g1))
                                          (image.Dy (image.Bounds g1)))) ->
     length (Triangles.Triangles d1) = length (Triangles.Triangles d2) ->
     0 <= mid < Z.of_nat (length (Triangles.Triangles d1)) ->
     exists child,
       Triangles.crossover fill d1 d2 (mid :: tape) = Ok (child, tape) /\
       length (Triangles.Triangles child) = length (Triangles.Triangles d1) /\
       forall i, (i < length (Triangles.Triangles d1))%nat ->
         Triangles.Triangles child !! i =
           if Z.of_nat i >? mid
           then Triangles.Triangles d1 !! i
           else Triangles.Triangles d2 !! i) /\
  (forall (d1 d2 : Pixels.DNA) (g1 g2 : image.RGBA) (mid : Z) (tape : Rand),
     Pixels.Gene d1 = Some g1 ->
     Pixels.Gene d2 = Some g2 ->
     length (image.Pix g1) = length (image.Pix g2) ->
     0 <= mid < Z.of_nat (length (image.Pix g1)) ->
     exists child gene,
       Pixels.crossover d1 d2 (mid :: tape) = Ok (child, tape) /\
       Pixels.Gene child = Some gene /\
       length (image.Pix gene) = length (image.Pix g1) /\
       forall i, (i < length (image.Pix g1))%nat ->
         image.Pix gene !! i =
           if Z.of_nat i >? mid then image.Pix g1 !! i else image.Pix g2 !! i).
Proof.
  split.
  - intros fill d1 d2 g1 mid tape Hg Hnew Hlen Hmid.
    rewrite (Triangles_crossover_spec fill d1 d2 g1 (mid :: tape) Hg) by lia.
    simpl next. simpl fst. simpl snd. rewrite (Z.mod_small mid) by lia.
    destruct (draw_Ok fill _ _ (splice mid (Triangles.Triangles d1) (Triangles.Triangles d2)) Hnew)
      as [gene ->].
    eexists. split; [reflexivity |]. simpl.
    split; [apply splice_length |].
    intros i Hi. apply splice_lookup; lia.
  - intros d1 d2 g1 g2 mid tape Hg1 Hg2 Hlen Hmid.
    rewrite (Pixels_crossover_spec d1 d2 g1 g2 (mid :: tape) Hg1 Hg2) by lia.
    simpl next. simpl fst. simpl snd. rewrite (Z.mod_small mid) by lia.
    eexists _, _. split; [reflexivity |]. split; [reflexivity |]. simpl.
    split; [apply splice_length |].
    intros i Hi. apply splice_lookup; lia.
Qed.

(** C7. Crossing a genome with itself gives its own content back, wherever
    the generator puts the split: in the raw-pixel program the child's
    image is the parent's, byte for byte; in the triangle program the child
    has the parent's list of triangles and its image is the rendering of
    that list on a canvas of the parent's size. *)
Theorem crossover_with_itself :
  (forall (fill : image.RGBA -> Triangles.Triangle -> image.RGBA)
          (A : Triangles.DNA) (g img : image.RGBA) (tape : Rand),
     Triangles.Gene A = Some g ->
     Triangles.Triangles A <> [] ->
     Triangles.draw fill (image.Dx (image.Bounds g)) (image.Dy (image.Bounds g))
                    (Triangles.Triangles A) = Ok img ->
     exists tape',
       Triangles.crossover fill A A tape =
         Ok ({| Triangles.Gene := Some img;
                Triangles.Triangles := Triangles.Triangles A;
                Triangles.Fitness := 0 |}, tape')) /\
  (forall (A : Pixels.DNA) (g : image.RGBA) (tape : Rand),
     Pixels.Gene A = Some g ->
     image.Pix g <> [] ->
     exists tape',
       Pixels.crossover A A tape =
         Ok ({| Pixels.Gene := Some g; Pixels.Fitness := 0 |}, tape')).
Proof.
  split.
  - intros fill A g img tape Hg Hne Hdraw.
    assert (0 < length (Triangles.Triangles A))%nat
      by (destruct (Triangles.Triangles A); [contradiction | simpl; lia]).
    rewrite (Triangles_crossover_spec fill A A g tape Hg) by lia.
    rewrite splice_self, Hdraw. eexists. reflexivity.
  - intros A g tape Hg Hne.
    assert (0 < length (image.Pix g))%nat
      by (destruct (image.Pix g); [contradiction | simpl; lia]).
    rewrite (Pixels_crossover_spec A A g g tape Hg Hg) by lia.
    rewrite splice_self. destruct g. eexists. reflexivity.
Qed.

(** ** The engine: no panic, sizes, invariants *)

Lemma indexZ_Intn {A} (pool : list A) (r : Rand) :
  pool <> [] ->
  exists a, a ∈ pool /\
    indexZ pool (fst (next r) mod Z.of_nat (length pool)) = Ok a.
Proof.
  intros Hne. assert (0 < length pool)%nat by (destruct pool; [contradiction | simpl; lia]).
  set (i := fst (next r) mod Z.of_nat (length pool)).
  assert (0 <= i < Z.of_nat (length pool)) by (apply Z.mod_pos_bound; lia).
  destruct (lookup_lt_is_Some_2 pool (Z.to_nat i)) as [a Ha]; [lia |].
  exists a. split; [eapply list_elem_of_lookup_2; eassumption |].
  apply indexZ_lookup; [lia | assumption].
Qed.

Section EngineFacts.
Context {DNA : Type} (zeroDNA : DNA).
Variable crossover : DNA -> DNA -> M DNA.
Variable mutate : DNA -> M DNA.
Variable calcFitness : DNA -> image.RGBA -> result DNA.
Variable createDNA : image.RGBA -> M DNA.
Variable target : image.RGBA.
(** [parent]: what the loop needs of the genomes of the pool; [offspring]:
    what it establishes of every child. *)
Variables parent offspring : DNA -> Prop.

Hypothesis breed : forall a b r, parent a -> parent b ->
  exists c1 r1 c2 r2 c3,
    crossover a b r = Ok (c1, r1) /\
    mutate c1 r1 = Ok (c2, r2) /\
    calcFitness c2 target = Ok c3 /\
    offspring c3.

Lemma naturalSelection_Ok (pool population : list DNA) (r : Rand) :
  pool <> [] ->
  Forall parent pool ->
  exists next r',
    naturalSelection zeroDNA crossover mutate calcFitness pool population target r
      = Ok (next, r') /\
    length next = length population /\
    Forall offspring next.
Proof.
  intros Hne Hpool. rewrite Forall_forall in Hpool. unfold naturalSelection.
  assert (Hpos : 0 < Z.of_nat (length pool))
    by (destruct pool; [contradiction | simpl; lia]).
  destruct (for_loopM_inv
      (fun i next _ => length next = length population /\
                       forall j, (j < i)%nat -> exists g, next !! j = Some g /\ offspring g)
      (length population) 0
      (fun i next =>
         r1 ← Intn (Z.of_nat (length pool));
         r2 ← Intn (Z.of_nat (length pool));
         a ← lift (indexZ pool r1);
         b ← lift (indexZ pool r2);
         child ← crossover a b;
         child ← mutate child;
         child ← lift (calcFitness child target);
         mret (<[i := child]> next))
      (replicate (length population) zeroDNA) r) as (next & r' & Hrun & Hlen & Hall).
  - split; [apply length_replicate | intros; lia].
  - intros j nxt q Hj (Hlen & Hall).
    destruct (indexZ_Intn pool q Hne) as (a & Ha & Hia).
    destruct (indexZ_Intn pool (snd (next q)) Hne) as (b & Hb & Hib).
    destruct (breed a b (snd (next (snd (next q)))) (Hpool a Ha) (Hpool b Hb))
      as (c1 & q1 & c2 & q2 & c3 & Hc1 & Hc2 & Hc3 & Hoff).
    exists (<[j := c3]> nxt), q2. split.
    + erewrite M_bind_Ok by (apply Intn_Ok; lia).
      erewrite M_bind_Ok by (apply Intn_Ok; lia).
      erewrite M_bind_Ok by (unfold lift; rewrite Hia; reflexivity).
      erewrite M_bind_Ok by (unfold lift; rewrite Hib; reflexivity).
      erewrite M_bind_Ok by exact Hc1.
      erewrite M_bind_Ok by exact Hc2.
      erewrite M_bind_Ok by (unfold lift; rewrite Hc3; reflexivity).
      reflexivity.
    + split; [now rewrite length_insert |].
      intros k Hk. destruct (decide (k = j)) as [-> | Hne'].
      * exists c3. split; [apply list_lookup_insert_eq; lia | assumption].
      * rewrite list_lookup_insert_ne by lia. apply Hall. lia.
  - exists next, r'. split; [exact Hrun |]. split; [exact Hlen |].
    apply Forall_lookup. intros k g Hg.
    destruct (Hall k) as (g' & Hg' & Hoff).
    + apply lookup_lt_Some in Hg. simpl. lia.
    + congruence.
Qed.

Hypothesis create : forall r, exists d r', createDNA target r = Ok (d, r') /\ offspring d.

Lemma createPopulation_Ok (PopSize : Z) (r : Rand) :
  0 <= PopSize ->
  exists population r',
    createPopulation zeroDNA createDNA PopSize target r = Ok (population, r') /\
    Z.of_nat (length population) = PopSize /\
    Forall offspring population.
Proof.
  intros Hsize. unfold createPopulation, make.
  destruct (Z.ltb_spec PopSize 0); [lia |].
  erewrite M_bind_Ok by reflexivity.
  set (n := Z.to_nat PopSize).
  destruct (for_loopM_inv
      (fun i population _ => length population = n /\
                       forall j, (j < i)%nat -> exists g, population !! j = Some g /\ offspring g)
      n 0
      (fun i population => dna ← createDNA target; mret (<[i := dna]> population))
      (replicate n zeroDNA) r) as (population & r' & Hrun & Hlen & Hall).
  - split; [apply length_replicate | intros; lia].
  - intros j population q Hj (Hlen & Hall).
    destruct (create q) as (d & q' & Hd & Hoff).
    exists (<[j := d]> population), q'. split.
    + erewrite M_bind_Ok by exact Hd. reflexivity.
    + split; [now rewrite length_insert |].
      intros k Hk. destruct (decide (k = j)) as [-> | Hne'].
      * exists d. split; [apply list_lookup_insert_eq; lia | assumption].
      * rewrite list_lookup_insert_ne by lia. apply Hall. lia.
  - exists population, r'. split; [exact Hrun |]. split; [lia |].
    apply Forall_lookup. intros k g Hg.
    destruct (Hall k) as (g' & Hg' & Hoff).
    + apply lookup_lt_Some in Hg. simpl. lia.
    + congruence.
Qed.

End EngineFacts.

(** ** Evaluation never fails on buffers that fit, and is non-negative *)

Lemma diff_valid (a b : image.RGBA) :
  (length (image.Pix a) <= length (image.Pix b))%nat ->
  small b ->
  exists v, diff a b = Ok v /\ valid_fitness v.
Proof.
  intros Hlen Hsmall. unfold small in Hsmall. rewrite diff_spec.
  destruct (Nat.leb_spec (length (image.Pix a)) (length (image.Pix b))); [| lia].
  eexists. split; [reflexivity |].
  pose proof (sumSquares_range (image.Pix a) (image.Pix b)) as Hs.
  assert (Hb : 65025 * Z.of_nat (length (image.Pix a)) < 2 ^ 63) by lia.
  rewrite int64_small by lia. apply root_range. lia.
Qed.

Lemma sumSquares_same (a : list byte) : sumSquares a a = 0.
Proof.
  induction a as [| x a IH]; simpl; [reflexivity |]. rewrite IH. lia.
Qed.

Lemma diff_same (a : image.RGBA) : diff a a = Ok 0.
Proof.
  rewrite diff_spec, Nat.leb_refl, sumSquares_same. reflexivity.
Qed.

Lemma sumSquares_take (a b : list byte) :
  sumSquares a (take (length a) b) = sumSquares a b.
Proof.
  revert b. induction a as [| x a IH]; intros [| y b]; simpl; try reflexivity.
  now rewrite IH.
Qed.

(** ** The triangle program: genomes that fit the target *)

Lemma canvas_fits_bounds (target : image.RGBA) (w h : Z) :
  small target -> canvas_fits target w h ->
  0 < w < 2 ^ 47 /\ 0 < h < 2 ^ 47 /\ 0 < 4 * w * h < 2 ^ 47.
Proof.
  unfold small, canvas_fits. intros Hs (Hw & Hh & Hfit). nia.
Qed.

Lemma Rect_canvas (w h : Z) :
  0 <= w < 2 ^ 63 -> 0 <= h < 2 ^ 63 ->
  image.Dx (image.Rect 0 0 w h) = w /\ image.Dy (image.Rect 0 0 w h) = h.
Proof.
  intros Hw Hh. unfold image.Rect.
  destruct (Z.gtb_spec 0 w); [lia |]. destruct (Z.gtb_spec 0 h); [lia |].
  unfold image.Dx, image.Dy. simpl. rewrite !Z.sub_0_r, !int64_small by lia. now split.
Qed.

Lemma foldl_fill_canvas (fill : image.RGBA -> Triangles.Triangle -> image.RGBA)
    (ts : list Triangles.Triangle) (dest : image.RGBA) :
  keeps_canvas fill ->
  image.Bounds (foldl fill dest ts) = image.Bounds dest /\
  length (image.Pix (foldl fill dest ts)) = length (image.Pix dest).
Proof.
  intros Hfill. revert dest. induction ts as [| t ts IH]; intros dest; simpl; [now split |].
  destruct (IH (fill dest t)) as [-> ->]. apply Hfill.
Qed.

Lemma draw_canvas (fill : image.RGBA -> Triangles.Triangle -> image.RGBA)
    (w h : Z) (ts : list Triangles.Triangle) :
  keeps_canvas fill ->
  0 < w < 2 ^ 47 -> 0 < h < 2 ^ 47 -> 0 < 4 * w * h < 2 ^ 47 ->
  exists gene,
    Triangles.draw fill w h ts = Ok gene /\
    image.Dx (image.Bounds gene) = w /\
    image.Dy (image.Bounds gene) = h /\
    Z.of_nat (length (image.Pix gene)) = 4 * w * h.
Proof.
  intros Hfill Hw Hh Hwh.
  destruct (Rect_canvas w h) as [HDx HDy]; [lia | lia |].
  unfold Triangles.draw, image.NewRGBA. rewrite HDx, HDy.
  destruct (Z.ltb_spec w 0); [lia |]. destruct (Z.ltb_spec h 0); [lia |].
  destruct (Z.ltb_spec maxInt (4 * w * h)); [unfold maxInt in *; lia |].
  simpl. eexists. split; [reflexivity |].
  match goal with |- context [foldl fill ?dest ts] =>
    destruct (foldl_fill_canvas fill ts dest Hfill) as [-> ->] end.
  simpl. rewrite HDx, HDy, length_replicate. repeat split; lia.
Qed.

Lemma createTriangle_Ok (w h : Z) (r : Rand) :
  0 < w -> 0 < h -> exists t r', Triangles.createTriangle w h r = Ok (t, r').
Proof.
  intros Hw Hh. unfold Triangles.createTriangle.
  do 10 (erewrite M_bind_Ok by (apply Intn_Ok; lia)).
  eexists _, _. reflexivity.
Qed.

Section TrianglesFacts.
Variable MutationRate : float64.
Variable fill : image.RGBA -> Triangles.Triangle -> image.RGBA.
Variable target : image.RGBA.
Hypothesis fill_keeps : keeps_canvas fill.
Hypothesis target_small : small target.

Lemma Triangles_calcFitness_Ok (d : Triangles.DNA) (g : image.RGBA) (N : nat) :
  Triangles.Gene d = Some g ->
  canvas_fits target (image.Dx (image.Bounds g)) (image.Dy (image.Bounds g)) ->
  Z.of_nat (length (image.Pix g)) =
    4 * image.Dx (image.Bounds g) * image.Dy (image.Bounds g) ->
  length (Triangles.Triangles d) = N ->
  exists d', Triangles.calcFitness d target = Ok d' /\
    Triangles_fit target N d' /\ valid_fitness (Triangles.Fitness d').
Proof.
  intros Hg Hfit Hpix HN. unfold Triangles.calcFitness. rewrite Hg. simpl.
  destruct (diff_valid g target) as (v & -> & Hv); [| exact target_small |].
  { destruct Hfit as (_ & _ & Hfit). lia. }
  simpl. eexists. split; [reflexivity |].
  split; [| destruct (v =? 0); exact Hv].
  exists g. destruct (v =? 0); simpl; auto.
Qed.

Lemma Triangles_crossover_Ok (a b : Triangles.DNA) (N : nat) (r : Rand) :
  (0 < N)%nat -> Triangles_fit target N a -> Triangles_fit target N b ->
  exists c g r',
    Triangles.crossover fill a b r = Ok (c, r') /\
    Triangles.Gene c = Some g /\
    canvas_fits target (image.Dx (image.Bounds g)) (image.Dy (image.Bounds g)) /\
    Z.of_nat (length (image.Pix g)) =
      4 * image.Dx (image.Bounds g) * image.Dy (image.Bounds g) /\
    length (Triangles.Triangles c) = N.
Proof.
  intros HN (ga & Hga & Hfit & Hla) (gb & _ & _ & Hlb).
  rewrite (Triangles_crossover_spec fill a b ga r Hga) by lia. cbv zeta.
  destruct (canvas_fits_bounds target _ _ target_small Hfit) as (Hw & Hh & Hwh).
  match goal with |- context [Triangles.draw fill ?w ?h ?ts] =>
    destruct (draw_canvas fill w h ts fill_keeps Hw Hh Hwh) as (gene & Hd & HDx & HDy & Hpix)
  end.
  rewrite Hd.
  eexists _, gene, _. split; [reflexivity |]. simpl.
  rewrite HDx, HDy, splice_length. auto.
Qed.

Lemma Triangles_mutate_Ok (d : Triangles.DNA) (g : image.RGBA) (N : nat) (r : Rand) :
  Triangles.Gene d = Some g ->
  canvas_fits target (image.Dx (image.Bounds g)) (image.Dy (image.Bounds g)) ->
  length (Triangles.Triangles d) = N ->
  exists d' g' r',
    Triangles.mutate MutationRate fill d r = Ok (d', r') /\
    Triangles.Gene d' = Some g' /\
    canvas_fits target (image.Dx (image.Bounds g')) (image.Dy (image.Bounds g')) /\
    Z.of_nat (length (image.Pix g')) =
      4 * image.Dx (image.Bounds g') * image.Dy (image.Bounds g') /\
    length (Triangles.Triangles d') = N /\
    Triangles.Fitness d' = Triangles.Fitness d.
Proof.
  intros Hg Hfit HN. unfold Triangles.mutate.
  destruct (canvas_fits_bounds target _ _ target_small Hfit) as (Hw & Hh & Hwh).
  match goal with |- context [for_loopM ?n 0 ?body ?init] =>
    destruct (for_loopM_inv (fun _ ts _ => length ts = N) n 0 body init r)
      as (ts & r' & Hrun & Hlen)
  end.
  - exact HN.
  - intros j ts q _ Hts.
    unfold Float64. destruct (next q) as [x q'] eqn:Hq.
    erewrite M_bind_Ok by (rewrite Hq; reflexivity).
    destruct (float64_lt _ MutationRate).
    + rewrite Hg. erewrite M_bind_Ok by reflexivity.
      destruct (createTriangle_Ok (image.Dx (image.Bounds g)) (image.Dy (image.Bounds g)) q')
        as (t & q'' & Ht); [lia | lia |].
      erewrite M_bind_Ok by exact Ht.
      eexists _, _. split; [reflexivity |]. now rewrite length_insert.
    + eexists _, _. split; [reflexivity | exact Hts].
  - erewrite M_bind_Ok by exact Hrun.
    rewrite Hg. erewrite M_bind_Ok by reflexivity.
    destruct (draw_canvas fill _ _ ts fill_keeps Hw Hh Hwh) as (gene & Hdraw & HDx & HDy & Hpix).
    erewrite M_bind_Ok by (unfold lift; rewrite Hdraw; reflexivity).
    eexists _, gene, _. split; [reflexivity |]. simpl.
    rewrite HDx, HDy. auto.
Qed.

Lemma Triangles_breed (N : nat) (a b : Triangles.DNA) (r : Rand) :
  (0 < N)%nat -> Triangles_fit target N a -> Triangles_fit target N b ->
  exists c1 r1 c2 r2 c3,
    Triangles.crossover fill a b r = Ok (c1, r1) /\
    Triangles.mutate MutationRate fill c1 r1 = Ok (c2, r2) /\
    Triangles.calcFitness c2 target = Ok c3 /\
    (Triangles_fit target N c3 /\ valid_fitness (Triangles.Fitness c3)).
Proof.
  intros HN Ha Hb.
  destruct (Triangles_crossover_Ok a b N r HN Ha Hb) as (c1 & g1 & r1 & Hc1 & Hg1 & Hf1 & _ & Hl1).
  destruct (Triangles_mutate_Ok c1 g1 N r1 Hg1 Hf1 Hl1)
    as (c2 & g2 & r2 & Hc2 & Hg2 & Hf2 & Hp2 & Hl2 & _).
  destruct (Triangles_calcFitness_Ok c2 g2 N Hg2 Hf2 Hp2 Hl2) as (c3 & Hc3 & Hfit & Hv).
  exists c1, r1, c2, r2, c3. auto.
Qed.

Lemma Triangles_createDNA_Ok (NumTriangles : Z) (r : Rand) :
  0 <= NumTriangles ->
  canvas_fits target (image.Dx (image.Bounds target)) (image.Dy (image.Bounds target)) ->
  exists d r',
    Triangles.createDNA NumTriangles fill target r = Ok (d, r') /\
    (Triangles_fit target (Z.to_nat NumTriangles) d /\ valid_fitness (Triangles.Fitness d)).
Proof.
  intros HN Hfit. unfold Triangles.createDNA, make.
  destruct (canvas_fits_bounds target _ _ target_small Hfit) as (Hw & Hh & Hwh).
  destruct (Z.ltb_spec NumTriangles 0); [lia |].
  erewrite M_bind_Ok by reflexivity.
  match goal with |- context [for_loopM ?n 0 ?body ?init] =>
    destruct (for_loopM_inv (fun _ ts _ => length ts = Z.to_nat NumTriangles) n 0 body init r)
      as (ts & r' & Hrun & Hlen)
  end.
  - apply length_replicate.
  - intros j ts q _ Hts.
    destruct (createTriangle_Ok (image.Dx (image.Bounds target))
                (image.Dy (image.Bounds target)) q) as (t & q' & Ht); [lia | lia |].
    erewrite M_bind_Ok by exact Ht.
    eexists _, _. split; [reflexivity |]. now rewrite length_insert.
  - erewrite M_bind_Ok by exact Hrun.
    destruct (draw_canvas fill _ _ ts fill_keeps Hw Hh Hwh) as (gene & Hdraw & HDx & HDy & Hpix).
    erewrite M_bind_Ok by (unfold lift; rewrite Hdraw; reflexivity).
    destruct (Triangles_calcFitness_Ok
                {| Triangles.Gene := Some gene; Triangles.Triangles := ts;
                   Triangles.Fitness := 0 |} gene (Z.to_nat NumTriangles))
      as (d & Hd & Hres); simpl; rewrite ?HDx, ?HDy; auto.
    exists d, r'. split; [| exact Hres]. unfold lift. now rewrite Hd.
Qed.

End TrianglesFacts.

(** ** The raw-pixel program: genomes of the size of the target *)

Section PixelsFacts.
Variable MutationRate : float64.
Variable target : image.RGBA.
Hypothesis target_small : small target.

Lemma Pixels_calcFitness_Ok (d : Pixels.DNA) :
  Pixels_fit target d ->
  exists d', Pixels.calcFitness d target = Ok d' /\
    Pixels_fit target d' /\ valid_fitness (Pixels.Fitness d').
Proof.
  intros (g & Hg & Hlen). unfold Pixels.calcFitness. rewrite Hg. simpl.
  destruct (diff_valid g target) as (v & -> & Hv); [lia | exact target_small |].
  simpl. eexists. split; [reflexivity |].
  split; [| destruct (v =? 0); exact Hv].
  exists g. destruct (v =? 0); simpl; auto.
Qed.

Lemma Pixels_crossover_Ok (a b : Pixels.DNA) (r : Rand) :
  image.Pix target <> [] ->
  Pixels_fit target a -> Pixels_fit target b ->
  exists c r', Pixels.crossover a b r = Ok (c, r') /\ Pixels_fit target c.
Proof.
  intros Hne (ga & Hga & Hla) (gb & Hgb & Hlb).
  assert (0 < length (image.Pix target))%nat
    by (destruct (image.Pix target); [contradiction | simpl; lia]).
  rewrite (Pixels_crossover_spec a b ga gb r Hga Hgb) by lia.
  eexists _, _. split; [reflexivity |].
  eexists. split; [reflexivity |]. simpl. now rewrite splice_length.
Qed.

Lemma Pixels_mutate_Ok (d : Pixels.DNA) (r : Rand) :
  Pixels_fit target d ->
  exists d' r', Pixels.mutate MutationRate d r = Ok (d', r') /\ Pixels_fit target d'.
Proof.
  intros (g & Hg & Hlen). unfold Pixels.mutate.
  rewrite Hg. erewrite M_bind_Ok by reflexivity.
  match goal with |- context [for_loopM ?n 0 ?body ?init] =>
    destruct (for_loopM_inv (fun _ pix _ => length pix = length (image.Pix target))
                n 0 body init r) as (pix & r' & Hrun & Hpix)
  end.
  - exact Hlen.
  - intros j pix q _ Hpix.
    unfold Float64. destruct (next q) as [x q'] eqn:Hq.
    erewrite M_bind_Ok by (rewrite Hq; reflexivity).
    destruct (float64_lt _ MutationRate).
    + erewrite M_bind_Ok by (apply Intn_Ok; lia).
      eexists _, _. split; [reflexivity |]. now rewrite length_insert.
    + eexists _, _. split; [reflexivity | exact Hpix].
  - erewrite M_bind_Ok by exact Hrun.
    eexists _, _. split; [reflexivity |].
    eexists. split; [reflexivity | exact Hpix].
Qed.

Lemma Pixels_breed (a b : Pixels.DNA) (r : Rand) :
  image.Pix target <> [] ->
  Pixels_fit target a -> Pixels_fit target b ->
  exists c1 r1 c2 r2 c3,
    Pixels.crossover a b r = Ok (c1, r1) /\
    Pixels.mutate MutationRate c1 r1 = Ok (c2, r2) /\
    Pixels.calcFitness c2 target = Ok c3 /\
    (Pixels_fit target c3 /\ valid_fitness (Pixels.Fitness c3)).
Proof.
  intros Hne Ha Hb.
  destruct (Pixels_crossover_Ok a b r Hne Ha Hb) as (c1 & r1 & Hc1 & Hf1).
  destruct (Pixels_mutate_Ok c1 r1 Hf1) as (c2 & r2 & Hc2 & Hf2).
  destruct (Pixels_calcFitness_Ok c2 Hf2) as (c3 & Hc3 & Hres).
  exists c1, r1, c2, r2, c3. auto.
Qed.

Lemma Read_Ok (p : list byte) (r : Rand) :
  exists p' r', Read p r = Ok (p', r') /\ length p' = length p.
Proof.
  unfold Read.
  destruct (for_loopM_inv (fun _ q _ => length q = length p) (length p) 0
              (fun i p r => let (x, r') := next r in Ok (<[i := uint8 x]> p, r')) p r)
    as (p' & r' & Hrun & Hlen).
  - reflexivity.
  - intros j q t _ Hq. destruct (next t) as [x t'].
    eexists _, _. split; [reflexivity |]. now rewrite length_insert.
  - eauto.
Qed.

Lemma Pixels_createDNA_Ok (r : Rand) :
  exists d r',
    Pixels.createDNA target r = Ok (d, r') /\
    (Pixels_fit target d /\ valid_fitness (Pixels.Fitness d)).
Proof.
  unfold Pixels.createDNA, Pixels.createRandomImageFrom.
  destruct (Read_Ok (replicate (length (image.Pix target)) x00) r) as (pix & r' & Hread & Hlen).
  erewrite M_bind_Ok by (erewrite M_bind_Ok by exact Hread; reflexivity).
  rewrite length_replicate in Hlen.
  match goal with |- context [Pixels.calcFitness ?d target] =>
    destruct (Pixels_calcFitness_Ok d) as (d' & Hd & Hres)
  end.
  - eexists. split; [reflexivity | exact Hlen].
  - exists d', r'. split; [| exact Hres]. unfold lift. now rewrite Hd.
Qed.

End PixelsFacts.

Lemma valid_fitness_nonneg {A} (P : A -> Prop) (F : A -> Z) (l : list A) :
  Forall (fun g => P g /\ valid_fitness (F g)) l -> Forall (fun g => 0 <= F g) l.
Proof.
  intros H. eapply Forall_impl; [exact H |]. unfold valid_fitness. intros g [_ Hg]. lia.
Qed.

Lemma Triangles_naturalSelection_Ok
    (MutationRate : float64) (fill : image.RGBA -> Triangles.Triangle -> image.RGBA)
    (target : image.RGBA) (N : nat) (pool population : list Triangles.DNA) (tape : Rand) :
  keeps_canvas fill -> small target -> (0 < N)%nat ->
  pool <> [] -> Forall (Triangles_fit target N) pool ->
  exists nextgen tape',
    Triangles.naturalSelection MutationRate fill pool population target tape
      = Ok (nextgen, tape') /\
    length nextgen = length population /\
    Forall (fun g => Triangles_fit target N g /\ valid_fitness (Triangles.Fitness g)) nextgen.
Proof.
  intros Hfill Hsmall HN Hne Hpool. unfold Triangles.naturalSelection.
  apply (naturalSelection_Ok Triangles.zeroDNA _ _ _ target (Triangles_fit target N));
    [| assumption | assumption].
  intros a b r Ha Hb. now apply Triangles_breed.
Qed.

Lemma Pixels_naturalSelection_Ok
    (MutationRate : float64) (target : image.RGBA)
    (pool population : list Pixels.DNA) (tape : Rand) :
  small target -> image.Pix target <> [] ->
  pool <> [] -> Forall (Pixels_fit target) pool ->
  exists nextgen tape',
    Pixels.naturalSelection MutationRate pool population target tape
      = Ok (nextgen, tape') /\
    length nextgen = length population /\
    Forall (fun g => Pixels_fit target g /\ valid_fitness (Pixels.Fitness g)) nextgen.
Proof.
  intros Hsmall Hpix Hne Hpool. unfold Pixels.naturalSelection.
  apply (naturalSelection_Ok Pixels.zeroDNA _ _ _ target (Pixels_fit target));
    [| assumption | assumption].
  intros a b r Ha Hb. now apply Pixels_breed.
Qed.

(** C9. [naturalSelection] returns a population of the length of the one
    it is given, and [createPopulation] one of [PopSize] genomes; every
    genome in them carries a non-negative fitness.  The pool is not empty
    and its genomes are as the programs build them: in the triangle program
    a non-empty list of triangles of a common length and a canvas that
    fits the target, in the raw-pixel program a buffer of the target's
    size; the target has fewer than [2^47] bytes. *)
Theorem populations_keep_size_and_fitness :
  (forall (MutationRate : float64) (fill : image.RGBA -> Triangles.Triangle -> image.RGBA)
          (target : image.RGBA) (N : nat) (pool population : list Triangles.DNA) (tape : Rand),
     keeps_canvas fill -> small target -> (0 < N)%nat ->
     pool <> [] -> Forall (Triangles_fit target N) pool ->
     exists nextgen tape',
       Triangles.naturalSelection MutationRate fill pool population target tape
         = Ok (nextgen, tape') /\
       length nextgen = length population /\
       Forall (fun g => 0 <= Triangles.Fitness g) nextgen) /\
  (forall (MutationRate : float64) (target : image.RGBA)
          (pool population : list Pixels.DNA) (tape : Rand),
     small target -> image.Pix target <> [] ->
     pool <> [] -> Forall (Pixels_fit target) pool ->
     exists nextgen tape',
       Pixels.naturalSelection MutationRate pool population target tape
         = Ok (nextgen, tape') /\
       length nextgen = length population /\
       Forall (fun g => 0 <= Pixels.Fitness g) nextgen) /\
  (forall (PopSize NumTriangles : Z) (fill : image.RGBA -> Triangles.Triangle -> image.RGBA)
          (target : image.RGBA) (tape : Rand),
     keeps_canvas fill -> small target ->
     canvas_fits target (image.Dx (image.Bounds target)) (image.Dy (image.Bounds target)) ->
     0 <= PopSize -> 0 <= NumTriangles ->
     exists population tape',
       Triangles.createPopulation PopSize NumTriangles fill target tape
         = Ok (population, tape') /\
       Z.of_nat (length population) = PopSize /\
       Forall (fun g => 0 <= Triangles.Fitness g) population) /\
  (forall (PopSize : Z) (target : image.RGBA) (tape : Rand),
     small target -> 0 <= PopSize ->
     exists population tape',
       Pixels.createPopulation PopSize target tape = Ok (population, tape') /\
       Z.of_nat (length population) = PopSize /\
       Forall (fun g => 0 <= Pixels.Fitness g) population).
Proof.
  repeat split.
  - intros MutationRate fill target N pool population tape Hfill Hsmall HN Hne Hpool.
    destruct (Triangles_naturalSelection_Ok MutationRate fill target N pool population tape)
      as (nextgen & tape' & Hrun & Hlen & Hall); try assumption.
    exists nextgen, tape'. repeat split; try assumption.
    eapply valid_fitness_nonneg; exact Hall.
  - intros MutationRate target pool population tape Hsmall Hpix Hne Hpool.
    destruct (Pixels_naturalSelection_Ok MutationRate target pool population tape)
      as (nextgen & tape' & Hrun & Hlen & Hall); try assumption.
    exists nextgen, tape'. repeat split; try assumption.
    eapply valid_fitness_nonneg; exact Hall.
  - intros PopSize NumTriangles fill target tape Hfill Hsmall Hfit Hsize HN.
    destruct (createPopulation_Ok Triangles.zeroDNA
                (Triangles.createDNA NumTriangles fill) target
                (fun g => Triangles_fit target (Z.to_nat NumTriangles) g /\
                          valid_fitness (Triangles.Fitness g))
                (fun r => Triangles_createDNA_Ok fill target Hfill Hsmall NumTriangles r HN Hfit)
                PopSize tape Hsize)
      as (population & tape' & Hrun & Hlen & Hall).
    exists population, tape'. repeat split; try assumption.
    eapply valid_fitness_nonneg; exact Hall.
  - intros PopSize target tape Hsmall Hsize.
    destruct (createPopulation_Ok Pixels.zeroDNA Pixels.createDNA target
                (fun g => Pixels_fit target g /\ valid_fitness (Pixels.Fitness g))
                (fun r => Pixels_createDNA_Ok target Hsmall r)
                PopSize tape Hsize)
      as (population & tape' & Hrun & Hlen & Hall).
    exists population, tape'. repeat split; try assumption.
    eapply valid_fitness_nonneg; exact Hall.
Qed.

(** ** A flat fitness landscape *)

Lemma int64_0 : int64 0 = 0.
Proof. reflexivity. Qed.

Lemma SliceStable_Forall {A} (key : A -> Z) (P : A -> Prop) (l : list A) :
  Forall P l -> Forall P (SliceStable (fun a b => key a <? key b) l).
Proof. intros H. now rewrite (SliceStable_perm key). Qed.

Lemma naturalSelection_empty_pool {DNA : Type} (zeroDNA : DNA)
    (crossover : DNA -> DNA -> M DNA) (mutate : DNA -> M DNA)
    (calcFitness : DNA -> image.RGBA -> result DNA)
    (population : list DNA) (target : image.RGBA) (tape : Rand) :
  population <> [] ->
  naturalSelection zeroDNA crossover mutate calcFitness [] population target tape
    = Panic IntnInvalidArgument.
Proof.
  intros Hne. unfold naturalSelection.
  destruct population as [| p population]; [contradiction |].
  simpl length. rewrite for_loopM_S.
  apply M_bind_Panic. apply M_bind_Panic. reflexivity.
Qed.

(** C2, what the code does: when the genomes at indices [0] and [K] of
    the sorted population have the same fitness, the triangle program takes
    the whole sorted population as the pool and the round that follows
    succeeds, with a population of the same length; the raw-pixel
    program has no such check, weighs every genome with zero, gets an empty
    pool, and the round that follows panics in [rand.Intn]. *)
Theorem flat_landscape_pool (K : Z) (target : image.RGBA) (MutationRate : float64)
    (tape : Rand) :
  (forall (fill : image.RGBA -> Triangles.Triangle -> image.RGBA) (N : nat)
          (population : list Triangles.DNA) (t0 tK : Triangles.DNA),
     let sorted := fst (Triangles.createPool K population target) in
     keeps_canvas fill -> small target -> (0 < N)%nat ->
     Forall (Triangles_fit target N) population ->
     0 <= K < Z.of_nat (length population) ->
     sorted !! 0%nat = Some t0 ->
     sorted !! Z.to_nat K = Some tK ->
     Triangles.Fitness tK = Triangles.Fitness t0 ->
     snd (Triangles.createPool K population target) = Ok sorted /\
     exists nextgen tape',
       Triangles.generation MutationRate K fill population target tape
         = Ok (nextgen, tape') /\
       length nextgen = length population) /\
  (forall (population : list Pixels.DNA) (t0 tK : Pixels.DNA),
     let sorted := fst (Pixels.createPool K population target) in
     0 <= K < Z.of_nat (length population) ->
     sorted !! 0%nat = Some t0 ->
     sorted !! Z.to_nat K = Some tK ->
     Pixels.Fitness tK = Pixels.Fitness t0 ->
     snd (Pixels.createPool K population target) = Ok [] /\
     Pixels.generation MutationRate K population target tape
       = Panic IntnInvalidArgument).
Proof.
  split.
  - intros fill N population t0 tK sorted Hfill Hsmall HN Hfit HK H0 HtK Hflat.
    assert (Hs : sorted = SliceStable Triangles.less population) by reflexivity.
    rewrite Hs in H0, HtK.
    unfold Triangles.generation.
    rewrite (Triangles_createPool_spec K population target t0 tK HK H0 HtK).
    rewrite Hflat, Z.sub_diag, int64_0. simpl. rewrite <- Hs.
    split; [reflexivity |].
    erewrite M_bind_Ok by reflexivity.
    assert (Hlen : length sorted = length population)
      by (rewrite Hs; apply (SliceStable_length Triangles.Fitness)).
    destruct (Triangles_naturalSelection_Ok MutationRate fill target N sorted sorted tape)
      as (nextgen & tape' & Hrun & Hl & _); try assumption.
    + intros ->. simpl in Hlen. lia.
    + rewrite Hs. now apply (SliceStable_Forall Triangles.Fitness).
    + exists nextgen, tape'. split; [exact Hrun | congruence].
  - intros population t0 tK sorted HK H0 HtK Hflat.
    assert (Hs : sorted = SliceStable Pixels.less population) by reflexivity.
    assert (Hsorted : StronglySorted
              (fun a b => Pixels.Fitness a <= Pixels.Fitness b) sorted)
      by (rewrite Hs; apply (SliceStable_sorted Pixels.Fitness)).
    assert (Hlen : length sorted = length population)
      by (rewrite Hs; apply (SliceStable_length Pixels.Fitness)).
    assert (Hzero : weighted
              (fun g => Z.to_nat (int64 (int64 (Pixels.Fitness tK - Pixels.Fitness g) * 10)))
              (take (Z.to_nat K) sorted) = []).
    { apply weighted_all_zero, Forall_forall. intros g Hg.
      pose proof (sorted_before Pixels.Fitness sorted _ tK g Hsorted HtK Hg) as Hle.
      assert (Hge : Pixels.Fitness t0 <= Pixels.Fitness g).
      { apply elem_of_take in Hg as (i & Hi & _).
        destruct i as [| i]; [rewrite H0 in Hi; injection Hi as <-; lia |].
        rewrite <- (take_drop 1 sorted) in Hsorted.
        apply (StronglySorted_app_1_elem_of _ _ _ t0 g Hsorted).
        - apply list_elem_of_lookup. exists 0%nat. rewrite lookup_take_lt by lia. exact H0.
        - apply list_elem_of_lookup. exists i. rewrite lookup_drop. exact Hi. }
      replace (Pixels.Fitness tK - Pixels.Fitness g) with 0 by lia. reflexivity. }
    rewrite Hs in HtK. unfold Pixels.generation.
    rewrite (Pixels_createPool_spec K population target tK HK HtK). simpl.
    rewrite <- Hs, Hzero. split; [reflexivity |].
    erewrite M_bind_Ok by reflexivity.
    apply naturalSelection_empty_pool.
    intros ->. simpl in Hlen. lia.
Qed.

(** ** The metric and the fitness *)

(** C3. [squareDifference] is the exact square of the difference of its
    two bytes, also when the second exceeds the first: the unsigned
    subtraction wraps around, and squaring modulo [2^64] undoes it.  So
    [diff] takes the root of the exact sum of the squared differences of
    the bytes; the [int64] accumulator does not overflow on buffers of
    fewer than [2^47] bytes. *)
Theorem squareDifference_is_exact :
  (forall x y : byte, squareDifference x y = (u8 x - u8 y) ^ 2) /\
  (forall a b : image.RGBA,
     diff a b =
       if (length (image.Pix a) <=? length (image.Pix b))%nat
       then Ok (root (int64 (sumSquares (image.Pix a) (image.Pix b))))
       else Panic IndexOutOfRange) /\
  (forall a b : list byte,
     Z.of_nat (length a) < 2 ^ 47 -> int64 (sumSquares a b) = sumSquares a b).
Proof.
  split; [exact squareDifference_exact |]. split; [exact diff_spec |].
  intros a b Hlen. pose proof (sumSquares_range a b). apply int64_small. lia.
Qed.

(** C8, amended to what the code does.  [diff] never compares the two
    lengths.  When
    the second buffer is shorter than the first, the loop indexes it out of
    range and the run panics; when it is longer, [diff] returns the metric
    of the first buffer against the prefix of the second of the same
    length, and the bytes beyond are ignored. *)
Theorem diff_on_mismatched_buffers (a b : image.RGBA) :
  ((length (image.Pix b) < length (image.Pix a))%nat ->
   diff a b = Panic IndexOutOfRange) /\
  ((length (image.Pix a) <= length (image.Pix b))%nat ->
   diff a b =
     Ok (root (int64 (sumSquares (image.Pix a)
                        (take (length (image.Pix a)) (image.Pix b))))) /\
   diff a b =
     diff a {| image.Pix := take (length (image.Pix a)) (image.Pix b);
               image.Stride := image.Stride b;
               image.Bounds := image.Bounds b |}).
Proof.
  rewrite !diff_spec. simpl image.Pix. split.
  - intros Hlt. destruct (Nat.leb_spec (length (image.Pix a)) (length (image.Pix b))); [lia |].
    reflexivity.
  - intros Hle. rewrite length_take, sumSquares_take.
    destruct (Nat.leb_spec (length (image.Pix a)) (length (image.Pix b))); [| lia].
    destruct (Nat.leb_spec (length (image.Pix a))
                (length (image.Pix a) `min` length (image.Pix b))); [| lia].
    split; reflexivity.
Qed.

(** C1, what the code does instead: [calcFitness] assigns [1] when the
    distance is zero and then assigns the distance unconditionally, so the
    fitness stored is always the distance; for a genome whose image is the
    target, it is [0] and not [1]. *)
Theorem calcFitness_stores_the_distance :
  (forall (d : Triangles.DNA) (g target : image.RGBA) (v : Z),
     Triangles.Gene d = Some g -> diff g target = Ok v ->
     Triangles.calcFitness d target =
       Ok {| Triangles.Gene := Some g; Triangles.Triangles := Triangles.Triangles d;
             Triangles.Fitness := v |}) /\
  (forall (d : Pixels.DNA) (g target : image.RGBA) (v : Z),
     Pixels.Gene d = Some g -> diff g target = Ok v ->
     Pixels.calcFitness d target =
       Ok {| Pixels.Gene := Some g; Pixels.Fitness := v |}) /\
  (forall (d : Triangles.DNA) (target : image.RGBA),
     Triangles.Gene d = Some target ->
     Triangles.calcFitness d target =
       Ok {| Triangles.Gene := Some target; Triangles.Triangles := Triangles.Triangles d;
             Triangles.Fitness := 0 |}) /\
  (forall (d : Pixels.DNA) (target : image.RGBA),
     Pixels.Gene d = Some target ->
     Pixels.calcFitness d target =
       Ok {| Pixels.Gene := Some target; Pixels.Fitness := 0 |}).
Proof.
  assert (HT : forall (d : Triangles.DNA) (g target : image.RGBA) (v : Z),
     Triangles.Gene d = Some g -> diff g target = Ok v ->
     Triangles.calcFitness d target =
       Ok {| Triangles.Gene := Some g; Triangles.Triangles := Triangles.Triangles d;
             Triangles.Fitness := v |}).
  { intros d g target v Hg Hv. unfold Triangles.calcFitness.
    rewrite Hg. simpl. rewrite Hv. simpl. destruct (v =? 0); simpl; now rewrite ?Hg. }
  assert (HP : forall (d : Pixels.DNA) (g target : image.RGBA) (v : Z),
     Pixels.Gene d = Some g -> diff g target = Ok v ->
     Pixels.calcFitness d target =
       Ok {| Pixels.Gene := Some g; Pixels.Fitness := v |}).
  { intros d g target v Hg Hv. unfold Pixels.calcFitness.
    rewrite Hg. simpl. rewrite Hv. simpl. destruct (v =? 0); simpl; now rewrite ?Hg. }
  split; [exact HT |]. split; [exact HP |]. split.
  - intros d target Hg. apply HT; [exact Hg | apply diff_same].
  - intros d target Hg. apply HP; [exact Hg | apply diff_same].
Qed.

(** ** Examples *)

Import Examples.

(** The regression value of the metric: black against white, one pixel. *)
Example diff_black_white : diff black white = Ok 510.
Proof. vm_compute. reflexivity. Qed.

Example diff_identical : diff white white = Ok 0.
Proof. vm_compute. reflexivity. Qed.

Example squareDifference_wraps_back : squareDifference x03 xc8 = 38809.
Proof. vm_compute. reflexivity. Qed.

Example getBest_ties : getBest Pixels.Fitness [pix black 3; pix white 7; pix black 7; pix white 2]
  = Ok (pix white 7).
Proof. vm_compute. reflexivity. Qed.

Example createPool_triangles :
  Triangles.createPool 2 [tri [t1] 5; tri [t2] 3; tri [t3] 9] black =
  ([tri [t2] 3; tri [t1] 5; tri [t3] 9],
   Ok (replicate 6 (tri [t2] 3) ++ replicate 4 (tri [t1] 5))).
Proof. vm_compute. reflexivity. Qed.

Example createPool_pixels_flat :
  Pixels.createPool 2 [pix black 5; pix white 5; pix black 5] black =
  ([pix black 5; pix white 5; pix black 5], Ok []).
Proof. vm_compute. reflexivity. Qed.

Example crossover_triangles :
  Triangles.crossover flood (tri [t1; t2; t3] 0) (tri [t4; t4; t4] 0) [1] =
  Ok ({| Triangles.Gene := Some (image_of [x03; x03; x03; x03] 1 1);
         Triangles.Triangles := [t4; t4; t3]; Triangles.Fitness := 0 |}, []).
Proof. vm_compute. reflexivity. Qed.

(** ** The theorems at concrete inputs *)

Lemma flood_keeps_canvas : keeps_canvas flood.
Proof.
  intros img t. split; [reflexivity | apply length_fmap].
Qed.

Lemma black_small : small black.
Proof. unfold small. simpl. lia. Qed.

Lemma black_canvas_fits :
  canvas_fits black (image.Dx (image.Bounds black)) (image.Dy (image.Bounds black)).
Proof. unfold canvas_fits. vm_compute. repeat split; discriminate. Qed.

Lemma tri_fits (ts : list Triangles.Triangle) (f : Z) :
  Triangles_fit black (length ts) (tri ts f).
Proof.
  exists black. split; [reflexivity |]. split; [apply black_canvas_fits | reflexivity].
Qed.

Lemma pix_fits (g : image.RGBA) (f : Z) :
  length (image.Pix g) = 4%nat -> Pixels_fit black (pix g f).
Proof. intros H. exists g. split; [reflexivity | exact H]. Qed.

Lemma getBest_first_maximum_witness :
  exists idx best,
    getBest Pixels.Fitness [pix black 3; pix white 7; pix black 7; pix white 2] = Ok best /\
    [pix black 3; pix white 7; pix black 7; pix white 2] !! idx = Some best /\
    (forall g, g ∈ [pix black 3; pix white 7; pix black 7; pix white 2] ->
        Pixels.Fitness g <= Z.max 0 (Pixels.Fitness best)) /\
    (Forall (fun g => 0 <= Pixels.Fitness g)
        [pix black 3; pix white 7; pix black 7; pix white 2] ->
     forall g, g ∈ [pix black 3; pix white 7; pix black 7; pix white 2] ->
        Pixels.Fitness g <= Pixels.Fitness best) /\
    (forall j g, (j < idx)%nat ->
        [pix black 3; pix white 7; pix black 7; pix white 2] !! j = Some g ->
        Pixels.Fitness g < Pixels.Fitness best).
Proof.
  apply (getBest_first_maximum Pixels.Fitness
           [pix black 3; pix white 7; pix black 7; pix white 2]).
  discriminate.
Defined.

Lemma createPool_weighted_pool_witness :
  (exists pool,
     snd (Triangles.createPool 2 [tri [t1] 5; tri [t2] 3; tri [t3] 9] black) = Ok pool /\
     Z.of_nat (length pool) =
       sumZ (fun g => Triangles.Fitness (tri [t3] 9) - Triangles.Fitness g)
            (take (Z.to_nat 2)
               (fst (Triangles.createPool 2 [tri [t1] 5; tri [t2] 3; tri [t3] 9] black))) /\
     forall g, g ∈ pool ->
       g ∈ take (Z.to_nat 2)
             (fst (Triangles.createPool 2 [tri [t1] 5; tri [t2] 3; tri [t3] 9] black))) /\
  (exists pool,
     snd (Pixels.createPool 2 [pix black 5; pix white 3; pix black 9] black) = Ok pool /\
     Z.of_nat (length pool) =
       sumZ (fun g => (Pixels.Fitness (pix black 9) - Pixels.Fitness g) * 10)
            (take (Z.to_nat 2)
               (fst (Pixels.createPool 2 [pix black 5; pix white 3; pix black 9] black))) /\
     forall g, g ∈ pool ->
       g ∈ take (Z.to_nat 2)
             (fst (Pixels.createPool 2 [pix black 5; pix white 3; pix black 9] black))).
Proof.
  split.
  - apply (proj1 (createPool_weighted_pool 2 black)
             [tri [t1] 5; tri [t2] 3; tri [t3] 9] (tri [t2] 3) (tri [t3] 9)).
    + simpl. lia.
    + repeat constructor; simpl; lia.
    + reflexivity.
    + reflexivity.
    + simpl. lia.
  - apply (proj2 (createPool_weighted_pool 2 black)
             [pix black 5; pix white 3; pix black 9] (pix black 9)).
    + simpl. lia.
    + repeat constructor; simpl; lia.
    + reflexivity.
Defined.

Lemma crossover_splits_at_mid_witness :
  (exists child,
     Triangles.crossover flood (tri [t1; t2; t3] 0) (tri [t4; t4; t4] 0) [1] = Ok (child, []) /\
     length (Triangles.Triangles child) = 3%nat /\
     forall i, (i < 3)%nat ->
       Triangles.Triangles child !! i =
         if Z.of_nat i >? 1 then [t1; t2; t3] !! i else [t4; t4; t4] !! i) /\
  (exists child gene,
     Pixels.crossover (pix black 0) (pix white 0) [2] = Ok (child, []) /\
     Pixels.Gene child = Some gene /\
     length (image.Pix gene) = 4%nat /\
     forall i, (i < 4)%nat ->
       image.Pix gene !! i =
         if Z.of_nat i >? 2 then image.Pix black !! i else image.Pix white !! i).
Proof.
  split.
  - apply (proj1 crossover_splits_at_mid flood
             (tri [t1; t2; t3] 0) (tri [t4; t4; t4] 0) black 1 []).
    + reflexivity.
    + eexists. reflexivity.
    + reflexivity.
    + simpl. lia.
  - apply (proj2 crossover_splits_at_mid (pix black 0) (pix white 0) black white 2 []).
    + reflexivity.
    + reflexivity.
    + reflexivity.
    + simpl. lia.
Defined.

Lemma crossover_with_itself_witness :
  (exists tape',
     Triangles.crossover flood (tri [t1; t2; t3] 7) (tri [t1; t2; t3] 7) [5; 6] =
       Ok ({| Triangles.Gene := Some (image_of [x03; x03; x03; x03] 1 1);
              Triangles.Triangles := [t1; t2; t3];
              Triangles.Fitness := 0 |}, tape')) /\
  (exists tape',
     Pixels.crossover (pix black_white 7) (pix black_white 7) [5; 6] =
       Ok ({| Pixels.Gene := Some black_white; Pixels.Fitness := 0 |}, tape')).
Proof.
  split.
  - apply (proj1 crossover_with_itself flood (tri [t1; t2; t3] 7) black
             (image_of [x03; x03; x03; x03] 1 1) [5; 6]).
    + reflexivity.
    + discriminate.
    + vm_compute. reflexivity.
  - apply (proj2 crossover_with_itself (pix black_white 7) black_white [5; 6]).
    + reflexivity.
    + discriminate.
Defined.

Lemma populations_keep_size_and_fitness_witness :
  (exists nextgen tape',
     Triangles.naturalSelection rate_triangles flood
       [tri [t1; t2] 5; tri [t3; t4] 3]
       [tri [t1; t2] 5; tri [t3; t4] 3; tri [t1; t4] 9] black [1; 0; 1; 7]
       = Ok (nextgen, tape') /\
     length nextgen = 3%nat /\
     Forall (fun g => 0 <= Triangles.Fitness g) nextgen) /\
  (exists nextgen tape',
     Pixels.naturalSelection rate_pixels
       [pix black 5; pix white 3]
       [pix black 5; pix white 3; pix black 9] black [1; 0; 2; 7]
       = Ok (nextgen, tape') /\
     length nextgen = 3%nat /\
     Forall (fun g => 0 <= Pixels.Fitness g) nextgen) /\
  (exists population tape',
     Triangles.createPopulation 5 2 flood black [3; 1; 4; 1; 5] = Ok (population, tape') /\
     Z.of_nat (length population) = 5 /\
     Forall (fun g => 0 <= Triangles.Fitness g) population) /\
  (exists population tape',
     Pixels.createPopulation 5 black [3; 1; 4; 1; 5] = Ok (population, tape') /\
     Z.of_nat (length population) = 5 /\
     Forall (fun g => 0 <= Pixels.Fitness g) population).
Proof.
  split; [| split; [| split]].
  - apply (proj1 populations_keep_size_and_fitness rate_triangles flood black 2%nat).
    + exact flood_keeps_canvas.
    + exact black_small.
    + lia.
    + discriminate.
    + repeat constructor; apply (tri_fits [_; _]).
  - apply (proj1 (proj2 populations_keep_size_and_fitness) rate_pixels black).
    + exact black_small.
    + discriminate.
    + discriminate.
    + repeat constructor; apply pix_fits; reflexivity.
  - apply (proj1 (proj2 (proj2 populations_keep_size_and_fitness)) 5 2 flood black).
    + exact flood_keeps_canvas.
    + exact black_small.
    + exact black_canvas_fits.
    + lia.
    + lia.
  - apply (proj2 (proj2 (proj2 populations_keep_size_and_fitness)) 5 black).
    + exact black_small.
    + lia.
Defined.

Lemma flat_landscape_pool_witness :
  (snd (Triangles.createPool 2 [tri [t1] 5; tri [t2] 5; tri [t3] 5] black)
     = Ok (fst (Triangles.createPool 2 [tri [t1] 5; tri [t2] 5; tri [t3] 5] black)) /\
   exists nextgen tape',
     Triangles.generation rate_triangles 2 flood
       [tri [t1] 5; tri [t2] 5; tri [t3] 5] black [2; 0; 1]
       = Ok (nextgen, tape') /\
     length nextgen = 3%nat) /\
  (snd (Pixels.createPool 2 [pix black 5; pix white 5; pix black 5] black) = Ok [] /\
   Pixels.generation rate_pixels 2 [pix black 5; pix white 5; pix black 5] black [2; 0; 1]
     = Panic IntnInvalidArgument).
Proof.
  split.
  - apply (proj1 (flat_landscape_pool 2 black rate_triangles [2; 0; 1]) flood 1%nat
             [tri [t1] 5; tri [t2] 5; tri [t3] 5] (tri [t1] 5) (tri [t3] 5)).
    + exact flood_keeps_canvas.
    + exact black_small.
    + lia.
    + repeat constructor; apply (tri_fits [_]).
    + simpl. lia.
    + reflexivity.
    + reflexivity.
    + reflexivity.
  - apply (proj2 (flat_landscape_pool 2 black rate_pixels [2; 0; 1])
             [pix black 5; pix white 5; pix black 5] (pix black 5) (pix black 5)).
    + simpl. lia.
    + reflexivity.
    + reflexivity.
    + reflexivity.
Defined.

Lemma squareDifference_is_exact_witness :
  squareDifference x03 xc8 = (u8 x03 - u8 xc8) ^ 2 /\
  diff black white = Ok (root (int64 (sumSquares (image.Pix black) (image.Pix white)))) /\
  int64 (sumSquares (image.Pix black) (image.Pix white))
    = sumSquares (image.Pix black) (image.Pix white).
Proof.
  split; [| split].
  - apply (proj1 squareDifference_is_exact x03 xc8).
  - apply (proj1 (proj2 squareDifference_is_exact) black white).
  - apply (proj2 (proj2 squareDifference_is_exact) (image.Pix black) (image.Pix white)).
    simpl. lia.
Defined.

Lemma diff_on_mismatched_buffers_witness :
  diff black_white black = Panic IndexOutOfRange /\
  diff black black_white = Ok 0.
Proof.
  split.
  - apply (proj1 (diff_on_mismatched_buffers black_white black)). simpl. lia.
  - apply (proj1 (proj2 (diff_on_mismatched_buffers black black_white)
                    ltac:(simpl; lia))).
Defined.

(** C8 fails as stated: it is not so that [diff] panics whenever the
    lengths differ.  With a second buffer longer than the first it returns
    a distance, here zero, as if the buffers were equal. *)
Lemma diff_silent_on_longer_buffer :
  ~ (forall a b : image.RGBA,
       length (image.Pix a) <> length (image.Pix b) ->
       exists p, diff a b = Panic p).
Proof.
  intros H. destruct (H black black_white) as [p Hp].
  - simpl. lia.
  - vm_compute in Hp. discriminate Hp.
Qed.

Lemma calcFitness_stores_the_distance_witness :
  Triangles.calcFitness (tri [t1] 9) black = Ok (tri [t1] 0) /\
  Pixels.calcFitness (pix white 9) white = Ok (pix white 0) /\
  Pixels.calcFitness (pix white 9) black = Ok (pix white 510).
Proof.
  split; [| split].
  - apply (proj1 (proj2 (proj2 calcFitness_stores_the_distance)) (tri [t1] 9) black).
    reflexivity.
  - apply (proj2 (proj2 (proj2 calcFitness_stores_the_distance)) (pix white 9) white).
    reflexivity.
  - apply (proj1 (proj2 calcFitness_stores_the_distance) (pix white 9) white black 510).
    + reflexivity.
    + vm_compute. reflexivity.
Defined.
